(** * FKPolyTools: chain monitor, realtime service and wallet score

    A shallow embedding of four classes of the repository

    - [ChainMonitorClient]  (clients/chain-monitor-client.js),
    - [RealtimeService]     (services/realtime-service.js),
    - [WalletService]       (services/wallet-service.js),
    - [DataApiClient]       (clients/data-api.js),

    followed by the properties the specification states about them and
    by further properties of the code.

    Conventions.  JavaScript objects become records, [null]/[undefined]
    become [None], a method that can throw returns a [Result] or an
    [Outcome], a method that emits events returns the list of what it did
    next to the new state.  Asynchronous methods are run to completion in
    one step, the outcome of every call into the outside world (chain
    node, socket, clock) being an explicit argument. *)

From Stdlib Require Import ZArith QArith Qround List String Ascii Bool Lia Lqa.
From Stdlib Require Import Permutation Sorted DecimalString DecimalPos.
Import ListNotations.
Open Scope Z_scope.

(** ** Values of the host language and of the ethers library *)

Module JS.

(** The outcome of a call: a value, or a thrown error with its message. *)
Inductive Result (A : Type) : Type :=
| Ok (a : A)
| Throw (msg : string).
Arguments Ok {A} a.
Arguments Throw {A} msg.

Definition threw {A} (r : Result A) : bool :=
  match r with Ok _ => false | Throw _ => true end.

Definition code (c : ascii) : Z := Z.of_nat (nat_of_ascii c).

(** [String.prototype.toLowerCase], on the ASCII range. *)
Definition lowerChar (c : ascii) : ascii :=
  if (65 <=? code c) && (code c <=? 90)
  then ascii_of_nat (nat_of_ascii c + 32) else c.

Fixpoint toLowerCase (s : string) : string :=
  match s with
  | EmptyString => EmptyString
  | String c s' => String (lowerChar c) (toLowerCase s')
  end.

(** Digits of the two notations [BigNumber.from] reads. *)
Definition decDigit (c : ascii) : option Z :=
  if (48 <=? code c) && (code c <=? 57) then Some (code c - 48) else None.

Definition hexDigit (c : ascii) : option Z :=
  if (48 <=? code c) && (code c <=? 57) then Some (code c - 48)
  else if (97 <=? code c) && (code c <=? 102) then Some (code c - 87)
  else if (65 <=? code c) && (code c <=? 70) then Some (code c - 55)
  else None.

Fixpoint digits (base : Z) (digit : ascii -> option Z) (acc : Z) (s : string)
  : option Z :=
  match s with
  | EmptyString => Some acc
  | String c s' =>
      match digit c with
      | Some d => digits base digit (acc * base + d) s'
      | None => None
      end
  end.

(** One digit at least: the [+] of the regular expressions. *)
Definition natural (base : Z) (digit : ascii -> option Z) (s : string)
  : option Z :=
  match s with
  | EmptyString => None
  | _ => digits base digit 0 s
  end.

(** [/^-?0x[0-9a-f]+$/i] or [/^-?[0-9]+$/] after the sign. *)
Definition magnitude (s : string) : option Z :=
  match s with
  | String "0" (String "x" h) | String "0" (String "X" h) =>
      natural 16 hexDigit h
  | _ => natural 10 decDigit s
  end.

(** [ethers.BigNumber.from] on a string: an exact integer, or [None]
    where the library throws "invalid BigNumber string". *)
Definition BigNumber_from (s : string) : option Z :=
  match s with
  | String "-" s' => option_map Z.opp (magnitude s')
  | _ => magnitude s
  end.

(** [BigNumber.prototype.toString]: the decimal numeral. *)
Definition BigNumber_toString (z : Z) : string :=
  NilZero.string_of_int (Z.to_int z).

End JS.
Import JS.

(** ** The chain monitor *)

Module ChainMonitorClient.

Inductive Mode : Type := websocket | polling | disconnected.

Definition Mode_eqb (a b : Mode) : bool :=
  match a, b with
  | websocket, websocket | polling, polling | disconnected, disconnected => true
  | _, _ => false
  end.

(** A live object the monitor holds a reference to (provider, contract,
    interval timer); only its presence matters. *)
Inductive object : Type := obj.

(** [ChainMonitorConfig] as the caller passes it: every field but the
    key is optional. *)
Record ChainMonitorConfig : Type := {
  cfg_infuraApiKey : string;
  cfg_infuraNetwork : option string;
  cfg_wsEnabled : option bool;
  cfg_pollingIntervalMs : option Z;
  cfg_minTransferValue : option string;
  cfg_autoReconnect : option bool;
  cfg_reconnectDelayMs : option Z;
  cfg_maxReconnectAttempts : option Z
}.

(** [this.config], after the constructor has filled in the defaults. *)
Record Config : Type := {
  infuraApiKey : string;
  infuraNetwork : string;
  wsEnabled : bool;
  pollingIntervalMs : Z;
  minTransferValue : string;
  autoReconnect : bool;
  reconnectDelayMs : Z;
  maxReconnectAttempts : Z
}.

(** [x ?? d] *)
Definition nullish {A} (x : option A) (d : A) : A :=
  match x with Some a => a | None => d end.

(** [x || d] on numbers: zero is falsy. *)
Definition orNumber (x : option Z) (d : Z) : Z :=
  match x with
  | Some n => if n =? 0 then d else n
  | None => d
  end.

(** [x || d] on strings: the empty string is falsy. *)
Definition orString (x : option string) (d : string) : string :=
  match x with
  | Some EmptyString | None => d
  | Some s => s
  end.

Record TransferEvent : Type := {
  txHash : string;
  from : string;
  to : string;
  tokenId : string;
  amount : string;
  blockNumber : Z;
  timestamp : Z;
  isBatch : bool;
  operator : string
}.

Record ChainMonitorStats : Type := {
  mode : Mode;
  connected : bool;
  startedAt : option Z;
  eventsObserved : Z;
  lastEventAt : option Z;
  reconnectCount : Z;
  currentBlock : option Z
}.

(** The fields of a [ChainMonitorClient] instance. *)
Record Monitor : Type := {
  config : Config;
  httpProvider : option object;
  wsProvider : option object;
  ctfContract : option object;
  negRiskContract : option object;
  isRunning : bool;
  currentMode : Mode;
  pollingTimer : option object;
  lastScannedBlock : Z;
  reconnectAttempts : Z;
  stats : ChainMonitorStats
}.

(** What a method does to the outside: the events it emits on the
    monitor itself, in order, and the timers and sockets it touches. *)
Inductive Effect : Type :=
| emit_connected (m : Mode)
| emit_disconnected
| emit_transfer (e : TransferEvent)
| emit_error (msg : string)
| setInterval_poll
| clearInterval_poll
| setTimeout_reconnect
| destroy_ws.

(** The outcome of a method that may throw after it has changed the
    monitor: how it completed, the monitor it leaves, what it did. *)
Record Outcome : Type := {
  completion : Result unit;
  after : Monitor;
  effects : list Effect
}.

Definition returns (m : Monitor) (es : list Effect) : Outcome :=
  {| completion := Ok tt; after := m; effects := es |}.

Definition throws (msg : string) (m : Monitor) (es : list Effect) : Outcome :=
  {| completion := Throw msg; after := m; effects := es |}.

Definition constructor (c : ChainMonitorConfig) : Monitor :=
  {| config :=
       {| infuraApiKey := cfg_infuraApiKey c;
          infuraNetwork := orString (cfg_infuraNetwork c) "polygon-mainnet";
          wsEnabled := nullish (cfg_wsEnabled c) true;
          pollingIntervalMs := orNumber (cfg_pollingIntervalMs c) 3000;
          minTransferValue := orString (cfg_minTransferValue c) "0";
          autoReconnect := nullish (cfg_autoReconnect c) true;
          reconnectDelayMs := orNumber (cfg_reconnectDelayMs c) 5000;
          maxReconnectAttempts := orNumber (cfg_maxReconnectAttempts c) 10 |};
     httpProvider := None;
     wsProvider := None;
     ctfContract := None;
     negRiskContract := None;
     isRunning := false;
     currentMode := disconnected;
     pollingTimer := None;
     lastScannedBlock := 0;
     reconnectAttempts := 0;
     stats := {| mode := disconnected; connected := false;
                 startedAt := None; eventsObserved := 0;
                 lastEventAt := None; reconnectCount := 0;
                 currentBlock := None |} |}.

(** Field updates, written once. *)
Definition set_stats (f : ChainMonitorStats -> ChainMonitorStats) (m : Monitor)
  : Monitor :=
  {| config := config m; httpProvider := httpProvider m;
     wsProvider := wsProvider m; ctfContract := ctfContract m;
     negRiskContract := negRiskContract m; isRunning := isRunning m;
     currentMode := currentMode m; pollingTimer := pollingTimer m;
     lastScannedBlock := lastScannedBlock m;
     reconnectAttempts := reconnectAttempts m; stats := f (stats m) |}.

Definition stats_mode (v : Mode) (s : ChainMonitorStats) :=
  {| mode := v; connected := connected s; startedAt := startedAt s;
     eventsObserved := eventsObserved s; lastEventAt := lastEventAt s;
     reconnectCount := reconnectCount s; currentBlock := currentBlock s |}.

Definition stats_connected (v : bool) (s : ChainMonitorStats) :=
  {| mode := mode s; connected := v; startedAt := startedAt s;
     eventsObserved := eventsObserved s; lastEventAt := lastEventAt s;
     reconnectCount := reconnectCount s; currentBlock := currentBlock s |}.

Definition stats_startedAt (v : Z) (s : ChainMonitorStats) :=
  {| mode := mode s; connected := connected s; startedAt := Some v;
     eventsObserved := eventsObserved s; lastEventAt := lastEventAt s;
     reconnectCount := reconnectCount s; currentBlock := currentBlock s |}.

Definition stats_currentBlock (v : Z) (s : ChainMonitorStats) :=
  {| mode := mode s; connected := connected s; startedAt := startedAt s;
     eventsObserved := eventsObserved s; lastEventAt := lastEventAt s;
     reconnectCount := reconnectCount s; currentBlock := Some v |}.

Definition stats_observe (now : Z) (s : ChainMonitorStats) :=
  {| mode := mode s; connected := connected s; startedAt := startedAt s;
     eventsObserved := eventsObserved s + 1; lastEventAt := Some now;
     reconnectCount := reconnectCount s; currentBlock := currentBlock s |}.

Definition stats_reconnected (s : ChainMonitorStats) :=
  {| mode := mode s; connected := connected s; startedAt := startedAt s;
     eventsObserved := eventsObserved s; lastEventAt := lastEventAt s;
     reconnectCount := reconnectCount s + 1; currentBlock := currentBlock s |}.

Definition set_isRunning (v : bool) (m : Monitor) : Monitor :=
  {| config := config m; httpProvider := httpProvider m;
     wsProvider := wsProvider m; ctfContract := ctfContract m;
     negRiskContract := negRiskContract m; isRunning := v;
     currentMode := currentMode m; pollingTimer := pollingTimer m;
     lastScannedBlock := lastScannedBlock m;
     reconnectAttempts := reconnectAttempts m; stats := stats m |}.

Definition set_httpProvider (v : option object) (m : Monitor) : Monitor :=
  {| config := config m; httpProvider := v;
     wsProvider := wsProvider m; ctfContract := ctfContract m;
     negRiskContract := negRiskContract m; isRunning := isRunning m;
     currentMode := currentMode m; pollingTimer := pollingTimer m;
     lastScannedBlock := lastScannedBlock m;
     reconnectAttempts := reconnectAttempts m; stats := stats m |}.

Definition set_wsProvider (v : option object) (m : Monitor) : Monitor :=
  {| config := config m; httpProvider := httpProvider m;
     wsProvider := v; ctfContract := ctfContract m;
     negRiskContract := negRiskContract m; isRunning := isRunning m;
     currentMode := currentMode m; pollingTimer := pollingTimer m;
     lastScannedBlock := lastScannedBlock m;
     reconnectAttempts := reconnectAttempts m; stats := stats m |}.

Definition set_contracts (v : option object) (m : Monitor) : Monitor :=
  {| config := config m; httpProvider := httpProvider m;
     wsProvider := wsProvider m; ctfContract := v;
     negRiskContract := v; isRunning := isRunning m;
     currentMode := currentMode m; pollingTimer := pollingTimer m;
     lastScannedBlock := lastScannedBlock m;
     reconnectAttempts := reconnectAttempts m; stats := stats m |}.

Definition set_currentMode (v : Mode) (m : Monitor) : Monitor :=
  {| config := config m; httpProvider := httpProvider m;
     wsProvider := wsProvider m; ctfContract := ctfContract m;
     negRiskContract := negRiskContract m; isRunning := isRunning m;
     currentMode := v; pollingTimer := pollingTimer m;
     lastScannedBlock := lastScannedBlock m;
     reconnectAttempts := reconnectAttempts m; stats := stats m |}.

Definition set_pollingTimer (v : option object) (m : Monitor) : Monitor :=
  {| config := config m; httpProvider := httpProvider m;
     wsProvider := wsProvider m; ctfContract := ctfContract m;
     negRiskContract := negRiskContract m; isRunning := isRunning m;
     currentMode := currentMode m; pollingTimer := v;
     lastScannedBlock := lastScannedBlock m;
     reconnectAttempts := reconnectAttempts m; stats := stats m |}.

Definition set_lastScannedBlock (v : Z) (m : Monitor) : Monitor :=
  {| config := config m; httpProvider := httpProvider m;
     wsProvider := wsProvider m; ctfContract := ctfContract m;
     negRiskContract := negRiskContract m; isRunning := isRunning m;
     currentMode := currentMode m; pollingTimer := pollingTimer m;
     lastScannedBlock := v;
     reconnectAttempts := reconnectAttempts m; stats := stats m |}.

Definition set_reconnectAttempts (v : Z) (m : Monitor) : Monitor :=
  {| config := config m; httpProvider := httpProvider m;
     wsProvider := wsProvider m; ctfContract := ctfContract m;
     negRiskContract := negRiskContract m; isRunning := isRunning m;
     currentMode := currentMode m; pollingTimer := pollingTimer m;
     lastScannedBlock := lastScannedBlock m;
     reconnectAttempts := v; stats := stats m |}.

(** *** Accessors *)

Definition getStats (m : Monitor) : ChainMonitorStats := stats m.
Definition isConnected (m : Monitor) : bool := connected (stats m).
Definition getMode (m : Monitor) : Mode := currentMode m.

(** *** The event pipeline *)

(** [processEvent(event)].  [now] is the clock read by [new Date()].
    Both conversions can throw; the amount is converted only when the
    threshold is positive, as [&&] evaluates. *)
Definition processEvent (now : Z) (event : TransferEvent) (m : Monitor)
  : Outcome :=
  match BigNumber_from (minTransferValue (config m)) with
  | None => throws "invalid BigNumber string" m []
  | Some minValue =>
      let pass :=
        returns (set_stats (stats_currentBlock (blockNumber event))
                   (set_stats (stats_observe now) m))
                [emit_transfer event] in
      if 0 <? minValue then
        match BigNumber_from (amount event) with
        | None => throws "invalid BigNumber string" m []
        | Some a => if a <? minValue then returns m [] else pass
        end
      else pass
  end.

(** [handleTransferSingle]: the push notification of one transfer.
    [now] is [Date.now()], in milliseconds. *)
Definition handleTransferSingle (now : Z) (operator' from' to' : string)
    (id value : Z) (transactionHash : string) (blockNumber' : Z)
    (m : Monitor) : Outcome :=
  processEvent now
    {| txHash := transactionHash;
       from := toLowerCase from';
       to := toLowerCase to';
       tokenId := BigNumber_toString id;
       amount := BigNumber_toString value;
       blockNumber := blockNumber';
       timestamp := now / 1000;
       isBatch := false;
       operator := toLowerCase operator' |} m.

(** [handleTransferBatch]: one event per token of the batch, each sent
    down the pipeline at once; a value missing for an id makes
    [values[i].toString()] throw. *)
Fixpoint handleTransferBatch (now : Z) (operator' from' to' : string)
    (ids values' : list Z) (transactionHash : string) (blockNumber' : Z)
    (m : Monitor) : Outcome :=
  match ids with
  | [] => returns m []
  | i :: ids' =>
      match values' with
      | [] => throws "TypeError" m []
      | v :: rest =>
          let o :=
            processEvent now
              {| txHash := transactionHash;
                 from := toLowerCase from';
                 to := toLowerCase to';
                 tokenId := BigNumber_toString i;
                 amount := BigNumber_toString v;
                 blockNumber := blockNumber';
                 timestamp := now / 1000;
                 isBatch := true;
                 operator := toLowerCase operator' |} m in
          match completion o with
          | Throw _ => o
          | Ok _ =>
              let o' := handleTransferBatch now operator' from' to' ids' rest
                          transactionHash blockNumber' (after o) in
              {| completion := completion o'; after := after o';
                 effects := effects o ++ effects o' |}
          end
      end
  end.

(** *** Connecting *)

(** How opening the push socket ends: the provider cannot even be
    constructed, the provider is stored but [ready] rejects, or the
    socket is open. *)
Inductive WsOutcome : Type := ws_refused | ws_rejected | ws_open.

Definition connectWebSocket (ws : WsOutcome) (m : Monitor) : Outcome :=
  match ws with
  | ws_refused => throws "WebSocket" m []
  | ws_rejected => throws "WebSocket" (set_wsProvider (Some obj) m) []
  | ws_open =>
      returns
        (set_reconnectAttempts 0
           (set_stats (stats_connected true)
              (set_stats (stats_mode websocket)
                 (set_currentMode websocket
                    (set_contracts (Some obj)
                       (set_wsProvider (Some obj) m))))))
        [emit_connected websocket]
  end.

Definition startPolling (m : Monitor) : Monitor * list Effect :=
  match pollingTimer m with
  | Some _ => (m, [])
  | None =>
      (set_pollingTimer (Some obj)
         (set_stats (stats_connected true)
            (set_stats (stats_mode polling)
               (set_currentMode polling m))),
       [emit_connected polling; setInterval_poll])
  end.

(** [try { await this.connectWebSocket() } catch { this.startPolling() }],
    as [connect] and the reconnect timer both have it. *)
Definition connectOrPoll (ws : WsOutcome) (m : Monitor) : Outcome :=
  let o := connectWebSocket ws m in
  match completion o with
  | Ok _ => o
  | Throw _ =>
      let (m', es) := startPolling (after o) in
      returns m' (effects o ++ es)
  end.

(** [connect()].  [now] is the clock, [height] the answer of
    [getBlockNumber] ([None] when the request fails), [ws] the fate of
    the push socket. *)
Definition connect (now : Z) (height : option Z) (ws : WsOutcome)
    (m : Monitor) : Outcome :=
  if isRunning m then returns m []
  else
    let m1 := set_httpProvider (Some obj)
                (set_stats (stats_startedAt now) (set_isRunning true m)) in
    match height with
    | None => throws "getBlockNumber" m1 []
    | Some h =>
        let m2 := set_stats (stats_currentBlock h)
                    (set_lastScannedBlock h m1) in
        if wsEnabled (config m2) then connectOrPoll ws m2
        else let (m', es) := startPolling m2 in returns m' es
    end.

Definition disconnect (m : Monitor) : Monitor * list Effect :=
  let m1 := set_isRunning false m in
  let es1 := match pollingTimer m1 with
             | Some _ => [clearInterval_poll] | None => [] end in
  let m2 := set_pollingTimer None m1 in
  let es2 := match wsProvider m2 with
             | Some _ => [destroy_ws] | None => [] end in
  let m3 := set_wsProvider None m2 in
  (set_stats (stats_connected false)
     (set_stats (stats_mode disconnected)
        (set_currentMode disconnected
           (set_contracts None m3))),
   es1 ++ es2 ++ [emit_disconnected]).

(** [handleDisconnect()], the listener of the socket's [close]. *)
Definition handleDisconnect (m : Monitor) : Monitor * list Effect :=
  if negb (isRunning m) then (m, [])
  else
    let m1 := set_stats (stats_connected false) m in
    let (m2, es) :=
      match wsProvider m1 with
      | Some _ => (set_contracts None (set_wsProvider None m1), [destroy_ws])
      | None => (m1, [])
      end in
    if autoReconnect (config m2)
       && (reconnectAttempts m2 <? maxReconnectAttempts (config m2))
    then
      (set_stats stats_reconnected
         (set_reconnectAttempts (reconnectAttempts m2 + 1) m2),
       es ++ [setTimeout_reconnect])
    else if Mode_eqb (currentMode m2) websocket then
      let (m3, es') := startPolling m2 in (m3, es ++ es')
    else (m2, es).

(** The callback [handleDisconnect] hands to [setTimeout]. *)
Definition reconnectTimer (ws : WsOutcome) (m : Monitor) : Outcome :=
  if isRunning m then connectOrPoll ws m else returns m [].

(** *** Historical transfers *)

Definition CTF_EXCHANGE : string :=
  "0x4bFb41d5B3570DeFd03C39a9A4D8dE6Bd8B8982E".
Definition NEG_RISK_CTF_EXCHANGE : string :=
  "0xC5d563A36AE78145C45a50134d48A1215220f80a".
Definition CTF_CONTRACT : string :=
  "0x4D97DCd97eC945f40cF65F87097ACe5EA0476045".
Definition NEG_RISK_ADAPTER : string :=
  "0xd91E80cF2E7be2e162c6513ceD06f1dD0dA35296".

Inductive EventName : Type := TransferSingle | TransferBatch.

Definition EventName_eqb (a b : EventName) : bool :=
  match a, b with
  | TransferSingle, TransferSingle | TransferBatch, TransferBatch => true
  | _, _ => false
  end.

(** A decoded argument of a log: an address, or an unsigned integer. *)
Inductive Arg : Type :=
| address (s : string)
| uint256 (z : Z).

(** [x.toLowerCase()]: only strings have the method. *)
Definition Arg_toLowerCase (a : Arg) : option string :=
  match a with
  | address s => Some (toLowerCase s)
  | uint256 _ => None
  end.

Definition Arg_toString (a : Arg) : string :=
  match a with
  | address s => s
  | uint256 z => BigNumber_toString z
  end.

(** A log as the node returns it and ethers decodes it; [args] is absent
    when the data does not decode. *)
Record Log : Type := {
  log_address : string;
  log_event : EventName;
  log_transactionHash : string;
  log_blockNumber : Z;
  log_args : option (list Arg)
}.

(** [parseTransferLog(log, isBatch)]; every exception of the body is
    caught and gives [null]. *)
Definition parseTransferLog (log : Log) (isBatch' : bool)
  : option TransferEvent :=
  match log_args log with
  | None => None
  | Some args =>
      match nth_error args 1, nth_error args 2,
            nth_error args 3, nth_error args 4, nth_error args 0 with
      | Some a1, Some a2, Some a3, Some a4, Some a0 =>
          match Arg_toLowerCase a1, Arg_toLowerCase a2, Arg_toLowerCase a0 with
          | Some f, Some t, Some o =>
              Some {| txHash := log_transactionHash log;
                      from := f;
                      to := t;
                      tokenId := Arg_toString a3;
                      amount := Arg_toString a4;
                      blockNumber := log_blockNumber log;
                      timestamp := 0;
                      isBatch := isBatch';
                      operator := o |}
          | _, _, _ => None
          end
      | _, _, _, _, _ => None
      end
  end.

(** [contract.queryFilter(contract.filters.X(), fromBlock, toBlock)] on
    the contract at [addr]: the node's [eth_getLogs], which answers with
    the logs of that address and event whose block lies in the closed
    range, in chain order.  [chain] is every log the node knows. *)
Definition queryFilter (chain : list Log) (addr : string) (ev : EventName)
    (fromBlock toBlock : Z) : list Log :=
  filter (fun l =>
            String.eqb (toLowerCase (log_address l)) (toLowerCase addr)
            && EventName_eqb (log_event l) ev
            && (fromBlock <=? log_blockNumber l)
            && (log_blockNumber l <=? toBlock))
         chain.

(** [for (const log of logs) { const event = parse(log); if (event) push }] *)
Fixpoint parseAll (logs : list Log) : list TransferEvent :=
  match logs with
  | [] => []
  | log :: rest =>
      match parseTransferLog log false with
      | Some e => e :: parseAll rest
      | None => parseAll rest
      end
  end.

(** [Array.prototype.sort] with [(a, b) => a.blockNumber - b.blockNumber]:
    the sort is stable, so it is the insertion of every element behind
    those that do not come later. *)
Fixpoint insertByBlock (e : TransferEvent) (l : list TransferEvent)
  : list TransferEvent :=
  match l with
  | [] => [e]
  | x :: l' =>
      if blockNumber e <? blockNumber x then e :: l
      else x :: insertByBlock e l'
  end.

Definition sortByBlock (l : list TransferEvent) : list TransferEvent :=
  fold_left (fun acc e => insertByBlock e acc) l [].

(** [getHistoricalTransfers(fromBlock, toBlock)].  [chain] is what the
    node holds, [None] when the node does not answer the query. *)
Definition getHistoricalTransfers (chain : option (list Log))
    (fromBlock toBlock : Z) (m : Monitor) : Result (list TransferEvent) :=
  match httpProvider m with
  | None => Throw "Not connected"
  | Some _ =>
      match chain with
      | None => Throw "queryFilter"
      | Some logs =>
          let ctfLogs :=
            queryFilter logs CTF_EXCHANGE TransferSingle fromBlock toBlock in
          let negRiskLogs :=
            queryFilter logs NEG_RISK_CTF_EXCHANGE TransferSingle
                        fromBlock toBlock in
          Ok (sortByBlock (parseAll ctfLogs ++ parseAll negRiskLogs))
      end
  end.

(** *** Polling *)

(** [for (const event of events) this.processEvent(event)]: the first
    event that throws ends the loop. *)
Fixpoint processAll (now : Z) (events : list TransferEvent) (m : Monitor)
  : Outcome :=
  match events with
  | [] => returns m []
  | e :: rest =>
      let o := processEvent now e m in
      match completion o with
      | Throw msg => o
      | Ok _ =>
          let o' := processAll now rest (after o) in
          {| completion := completion o'; after := after o';
             effects := effects o ++ effects o' |}
      end
  end.

(** [pollNewBlocks()], one tick of the interval timer; an exception
    inside is caught and emitted as [error]. *)
Definition pollNewBlocks (now : Z) (height : option Z)
    (chain : option (list Log)) (m : Monitor) : Monitor * list Effect :=
  match httpProvider m with
  | None => (m, [])
  | Some _ =>
      if negb (isRunning m) then (m, [])
      else
        match height with
        | None => (m, [emit_error "getBlockNumber"])
        | Some currentBlock' =>
            if lastScannedBlock m <? currentBlock' then
              match getHistoricalTransfers chain (lastScannedBlock m + 1)
                                           currentBlock' m with
              | Throw msg => (m, [emit_error msg])
              | Ok events =>
                  let o := processAll now events m in
                  match completion o with
                  | Throw msg => (after o, effects o ++ [emit_error msg])
                  | Ok _ =>
                      (set_stats (stats_currentBlock currentBlock')
                         (set_lastScannedBlock currentBlock' (after o)),
                       effects o)
                  end
              end
            else (m, [])
        end
  end.

(** *** The monitor as a transition system *)

(** Everything that can happen to a monitor: a call of its public
    interface, or a callback run by the event loop. *)
Inductive Action : Type :=
| call_connect (now : Z) (height : option Z) (ws : WsOutcome)
| call_disconnect
| on_close
| on_reconnectTimer (ws : WsOutcome)
| on_pollTimer (now : Z) (height : option Z) (chain : option (list Log))
| on_transfer (now : Z) (event : TransferEvent).

Definition step (a : Action) (m : Monitor) : Monitor :=
  match a with
  | call_connect now h ws => after (connect now h ws m)
  | call_disconnect => fst (disconnect m)
  | on_close => fst (handleDisconnect m)
  | on_reconnectTimer ws => after (reconnectTimer ws m)
  | on_pollTimer now h chain => fst (pollNewBlocks now h chain m)
  | on_transfer now e => after (processEvent now e m)
  end.

Definition run (trace : list Action) (m : Monitor) : Monitor :=
  fold_left (fun m a => step a m) trace m.

(** *** The pull-based stream

    [subscribeAllTransfers()] is an async generator.  A call returns a
    generator object and runs nothing of the body; the body starts at
    the first [next()].  The object keeps the [next()] requests it has
    not answered in a queue of its own and answers them one at a time,
    in order.  The body has two local variables, [eventQueue] and
    [resolveNext], and stops at three places: the [await] of the
    promise, the two [yield]s (which await their operand before they
    hand it over), and the end.  A continuation after a stop is a
    microtask of the event loop. *)

Definition Reader : Type := nat.

(** What a [next()] request is answered with: [{value, done: false}] or
    [{done: true}]. *)
Definition IteratorResult : Type := option TransferEvent.

(** Where the body stands: not entered yet; at the [await] of the
    promise, which [resolveNext] may have settled with an event; inside a
    [yield], the value on its way to the oldest request; stopped after a
    [yield] with no request left; past the loop and its [finally]. *)
Inductive Position : Type :=
| at_start
| at_await (settled : option TransferEvent)
| at_yield (value : TransferEvent)
| suspended
| completed.

Record Stream : Type := {
  eventQueue : list TransferEvent;
  resolveNext : bool;
  position : Position;
  requests : list Reader;
  delivered : list (Reader * IteratorResult)
}.

Definition subscribeAllTransfers : Stream :=
  {| eventQueue := []; resolveNext := false; position := at_start;
     requests := []; delivered := [] |}.

(** The listener [handler] is on the monitor from the first statement
    of the body to its [finally]. *)
Definition listening (s : Stream) : bool :=
  match position s with
  | at_start | completed => false
  | _ => true
  end.

(** [handler(event)] *)
Definition handler (event : TransferEvent) (s : Stream) : Stream :=
  if resolveNext s then
    {| eventQueue := eventQueue s;
       resolveNext := false;
       position := match position s with
                   | at_await None => at_await (Some event)
                   | p => p
                   end;
       requests := requests s;
       delivered := delivered s |}
  else
    {| eventQueue := eventQueue s ++ [event];
       resolveNext := resolveNext s;
       position := position s;
       requests := requests s;
       delivered := delivered s |}.

(** The body from the head of [while (this.isRunning)] to its next
    stop.  [running] is the monitor's [isRunning] at that moment. *)
Definition loop (running : bool) (s : Stream) : Stream :=
  if running then
    match eventQueue s with
    | e :: q =>
        {| eventQueue := q; resolveNext := resolveNext s;
           position := at_yield e;
           requests := requests s; delivered := delivered s |}
    | [] =>
        {| eventQueue := []; resolveNext := true;
           position := at_await None;
           requests := requests s; delivered := delivered s |}
    end
  else
    {| eventQueue := eventQueue s; resolveNext := resolveNext s;
       position := completed;
       requests := [];
       delivered := delivered s ++ map (fun r => (r, None)) (requests s) |}.

(** A reader calls [next()] on the generator object. *)
Definition next (running : bool) (r : Reader) (s : Stream) : Stream :=
  let queued :=
    {| eventQueue := eventQueue s; resolveNext := resolveNext s;
       position := position s;
       requests := requests s ++ [r]; delivered := delivered s |} in
  match position s with
  | at_start | suspended => loop running queued
  | at_await _ | at_yield _ => queued
  | completed =>
      {| eventQueue := eventQueue s; resolveNext := resolveNext s;
         position := completed;
         requests := requests s;
         delivered := delivered s ++ [(r, None)] |}
  end.

(** The pending continuation of the body runs. *)
Definition microtask (running : bool) (s : Stream) : Stream :=
  match position s with
  | at_await (Some e) =>
      {| eventQueue := eventQueue s; resolveNext := resolveNext s;
         position := at_yield e;
         requests := requests s; delivered := delivered s |}
  | at_yield e =>
      match requests s with
      | r :: rest =>
          let answered :=
            {| eventQueue := eventQueue s; resolveNext := resolveNext s;
               position := suspended;
               requests := rest;
               delivered := delivered s ++ [(r, Some e)] |} in
          match rest with
          | [] => answered
          | _ :: _ => loop running answered
          end
      | [] => s
      end
  | _ => s
  end.

(** [this.emit('transfer', event)] reaches the handler of a stream
    that is listening. *)
Definition emitTo (event : TransferEvent) (s : Stream) : Stream :=
  if listening s then handler event s else s.

Inductive StreamAction : Type :=
| do_next (r : Reader)
| do_emit (event : TransferEvent)
| do_microtask.

Definition streamStep (running : bool) (a : StreamAction) (s : Stream)
  : Stream :=
  match a with
  | do_next r => next running r s
  | do_emit e => emitTo e s
  | do_microtask => microtask running s
  end.

Definition streamRun (running : bool) (trace : list StreamAction)
    (s : Stream) : Stream :=
  fold_left (fun s a => streamStep running a s) trace s.

(** The events a stream still holds: the one on its way to a reader,
    then the queue. *)
Definition inFlight (s : Stream) : list TransferEvent :=
  match position s with
  | at_await (Some e) | at_yield e => [e]
  | _ => []
  end.

Definition pending (s : Stream) : list TransferEvent :=
  inFlight s ++ eventQueue s.

(** The values handed to readers, in order. *)
Fixpoint values (d : list (Reader * IteratorResult)) : list TransferEvent :=
  match d with
  | [] => []
  | (_, Some e) :: d' => e :: values d'
  | (_, None) :: d' => values d'
  end.

(** The events of a trace the stream was listening to: those emitted
    after the first [next()]. *)
Fixpoint emitted (trace : list StreamAction) : list TransferEvent :=
  match trace with
  | [] => []
  | do_emit e :: t => e :: emitted t
  | _ :: t => emitted t
  end.

Fixpoint heard (trace : list StreamAction) : list TransferEvent :=
  match trace with
  | [] => []
  | do_next _ :: t => emitted t
  | _ :: t => heard t
  end.

Fixpoint requested (trace : list StreamAction) : list Reader :=
  match trace with
  | [] => []
  | do_next r :: t => r :: requested t
  | _ :: t => requested t
  end.

(** Several streams on one monitor: every call of
    [subscribeAllTransfers()] makes a generator object with variables
    and a listener of its own, and [emit] calls every listener. *)
Definition Hub : Type := list Stream.

Inductive HubAction : Type :=
| hub_subscribe
| hub_next (i : nat) (r : Reader)
| hub_emit (event : TransferEvent)
| hub_microtask (i : nat).

Fixpoint onStream (i : nat) (f : Stream -> Stream) (h : Hub) : Hub :=
  match h, i with
  | [], _ => []
  | s :: h', O => f s :: h'
  | s :: h', S j => s :: onStream j f h'
  end.

Definition hubStep (running : bool) (a : HubAction) (h : Hub) : Hub :=
  match a with
  | hub_subscribe => h ++ [subscribeAllTransfers]
  | hub_next i r => onStream i (next running r) h
  | hub_emit e => map (emitTo e) h
  | hub_microtask i => onStream i (microtask running) h
  end.

Definition hubRun (running : bool) (trace : list HubAction) (h : Hub) : Hub :=
  fold_left (fun h a => hubStep running a h) trace h.

Definition deliveries (h : Hub) : list (Reader * IteratorResult) :=
  List.concat (map delivered h).

(** *** Vocabulary of the properties *)

(** The fields the event pipeline and the poll tick leave alone. *)
Definition control (m : Monitor) :=
  (config m, httpProvider m, wsProvider m, isRunning m, currentMode m,
   pollingTimer m, reconnectAttempts m, mode (stats m), connected (stats m)).

Definition isTeardown (a : Action) : bool :=
  match a with call_disconnect => true | _ => false end.

Definition isConnectCall (a : Action) : bool :=
  match a with call_connect _ _ _ => true | _ => false end.

(** What every monitor built by the constructor and driven by any
    sequence of calls and callbacks satisfies. *)
Definition sound (m : Monitor) : Prop :=
  (isRunning m = false -> pollingTimer m = None)
  /\ (httpProvider m = None ->
      isRunning m = false /\ connected (stats m) = false).

Definition ascending (a b : TransferEvent) : Prop :=
  blockNumber a <= blockNumber b.

(** The logs a query for the transfers of [addr] selects. *)
Definition selects (addr : string) (fromBlock toBlock : Z) (log : Log)
  : Prop :=
  toLowerCase (log_address log) = toLowerCase addr
  /\ log_event log = TransferSingle
  /\ fromBlock <= log_blockNumber log <= toBlock.

Definition heldBy (a : StreamAction) : list TransferEvent :=
  match a with do_emit e => [e] | _ => [] end.

Definition askedBy (a : StreamAction) : list Reader :=
  match a with do_next r => [r] | _ => [] end.

(** What holds of a stream between two steps of a running monitor. *)
Definition consistent (s : Stream) : Prop :=
  match position s with
  | at_start =>
      eventQueue s = [] /\ resolveNext s = false /\ requests s = []
      /\ delivered s = []
  | at_await None =>
      eventQueue s = [] /\ resolveNext s = true /\ requests s <> []
  | at_await (Some _) | at_yield _ =>
      resolveNext s = false /\ requests s <> []
  | suspended => resolveNext s = false /\ requests s = []
  | completed => False
  end.

(** The stream accounts for the trace that led to it. *)
Definition tracks (t : list StreamAction) (s : Stream) : Prop :=
  consistent s
  /\ (position s = at_start <-> requested t = [])
  /\ heard t = values (delivered s) ++ pending s
  /\ requested t = map fst (delivered s) ++ requests s
  /\ List.length (values (delivered s)) = List.length (delivered s).

(** The microtasks a stream needs until it has nothing left to hand
    over or nobody left to hand it to. *)
Definition backlog (s : Stream) : nat :=
  match position s with
  | at_await (Some _) => S (List.length (pending s))
  | _ => List.length (pending s)
  end.

Definition quiet (s : Stream) : Prop := pending s = [] \/ requests s = [].

Fixpoint hubEmitted (trace : list HubAction) : list TransferEvent :=
  match trace with
  | [] => []
  | hub_emit e :: t => e :: hubEmitted t
  | _ :: t => hubEmitted t
  end.

(** No event reaches two readers. *)
Definition toOneReader (h : Hub) : Prop :=
  forall e r1 r2,
    In (r1, Some e) (deliveries h) -> In (r2, Some e) (deliveries h) ->
    r1 = r2.

(** *** Sample monitors, events and traces *)

(** [{ infuraApiKey: 'key', minTransferValue, maxReconnectAttempts }] *)
Definition configured (minTransferValue' : option string)
    (maxReconnectAttempts' : option Z) : ChainMonitorConfig :=
  {| cfg_infuraApiKey := "key"; cfg_infuraNetwork := None;
     cfg_wsEnabled := None; cfg_pollingIntervalMs := None;
     cfg_minTransferValue := minTransferValue'; cfg_autoReconnect := None;
     cfg_reconnectDelayMs := None;
     cfg_maxReconnectAttempts := maxReconnectAttempts' |}.

Definition defaults : ChainMonitorConfig := configured None None.

Definition transfer (amount' : string) : TransferEvent :=
  {| txHash := "0xabc"; from := "0x01"; to := "0x02"; tokenId := "7";
     amount := amount'; blockNumber := 105; timestamp := 0;
     isBatch := false; operator := "0x03" |}.

(** A monitor whose minimum transfer value is "1000". *)
Definition filtering : Monitor :=
  constructor (configured (Some "1000"%string) None).

(** [{ infuraApiKey: 'key', maxReconnectAttempts: 3 }] *)
Definition threeAttempts : ChainMonitorConfig := configured None (Some 3).

(** Restarts whose sockets close late.  [disconnect()] destroys the
    push socket and returns; the [close] event of that socket arrives
    later, and [handleDisconnect] handles it when the monitor has been
    connected again by then.  Four restarts leave four such events;
    the fifth [connect()] finds the push endpoint failing and starts
    polling.  The first late [close] schedules a reconnect, which opens
    a socket next to the polling timer; the other three late [close]
    events use up the three attempts. *)
Definition lateCloses : list Action :=
  [call_connect 0 (Some 100) ws_open; call_disconnect;
   call_connect 0 (Some 100) ws_open; call_disconnect;
   call_connect 0 (Some 100) ws_open; call_disconnect;
   call_connect 0 (Some 100) ws_open; call_disconnect;
   call_connect 0 (Some 100) ws_rejected;
   on_close; on_reconnectTimer ws_open;
   on_close; on_close; on_close].

(** The same four restarts with the push endpoint working at the fifth
    [connect()]: three late [close] events use up the three attempts
    and no polling timer runs. *)
Definition lateClosesPushOnly : list Action :=
  [call_connect 0 (Some 100) ws_open; call_disconnect;
   call_connect 0 (Some 100) ws_open; call_disconnect;
   call_connect 0 (Some 100) ws_open; call_disconnect;
   call_connect 0 (Some 100) ws_open; call_disconnect;
   call_connect 0 (Some 100) ws_open;
   on_close; on_close; on_close].

(** Two readers, each with a stream of its own, and one transfer. *)
Definition twoSubscriptions : list HubAction :=
  [hub_subscribe; hub_subscribe; hub_next 0 1%nat; hub_next 1 2%nat;
   hub_emit (transfer "500");
   hub_microtask 0; hub_microtask 0; hub_microtask 1; hub_microtask 1].

Definition transferLog (addr : string) (block : Z) (value : Z) : Log :=
  {| log_address := addr; log_event := TransferSingle;
     log_transactionHash := "0xabc"; log_blockNumber := block;
     log_args := Some [address "0xAA"; address "0xBB"; address "0xCC";
                       uint256 7; uint256 value] |}.

Definition sampleChain : list Log :=
  [transferLog CTF_EXCHANGE 112 1;
   transferLog CTF_EXCHANGE 108 2;
   transferLog NEG_RISK_CTF_EXCHANGE 101 3;
   transferLog CTF_CONTRACT 103 4;
   transferLog CTF_EXCHANGE 100 5;
   transferLog NEG_RISK_CTF_EXCHANGE 99 6;
   {| log_address := CTF_EXCHANGE; log_event := TransferSingle;
      log_transactionHash := "0xdef"; log_blockNumber := 104;
      log_args := None |};
   transferLog NEG_RISK_CTF_EXCHANGE 110 7].

End ChainMonitorClient.

(** ** The realtime service *)

Module RealtimeService.

(** Modelled from the spec: [PriceUpdate] and [BookUpdate] are declared
    in core/types.js, which is not part of the sources at hand; they are
    "immutable snapshots keyed by asset identifier".  The records carry
    the fields the service reads.  A JavaScript number is taken as an
    exact rational. *)
Record PriceUpdate : Type := {
  assetId : string;
  price : Q
}.

Record BookUpdate : Type := {
  book_assetId : string
}.

Inductive Side : Type := BUY | SELL.

(** The argument of [onLastTrade]. *)
Record LastTrade : Type := {
  trade_assetId : string;
  trade_price : Q;
  trade_side : Side;
  trade_size : Q;
  trade_timestamp : Z
}.

(** [MarketSubscriptionHandlers]: which of the optional callbacks the
    caller has supplied. *)
Record MarketSubscriptionHandlers : Type := {
  onPriceUpdate : bool;
  onBookUpdate : bool;
  onLastTrade : bool;
  onError : bool;
  onPairUpdate : bool
}.

(** What the socket manager emits. *)
Inductive WsEvent : Type :=
| priceUpdate (update : PriceUpdate)
| bookUpdate (update : BookUpdate)
| lastTrade (trade : LastTrade)
| error (msg : string).

(** A call of one of the caller's callbacks, for the subscription
    [sub_<n>]. *)
Inductive Call : Type :=
| call_onPriceUpdate (n : nat) (update : PriceUpdate)
| call_onBookUpdate (n : nat) (update : BookUpdate)
| call_onLastTrade (n : nat) (trade : LastTrade)
| call_onError (n : nat) (msg : string)
| call_onPairUpdate (n : nat) (yes no : PriceUpdate) (spread : Q).

Definition callee (c : Call) : nat :=
  match c with
  | call_onPriceUpdate n _ | call_onBookUpdate n _ | call_onLastTrade n _
  | call_onError n _ | call_onPairUpdate n _ _ _ => n
  end.

(** The variables [subscribeMarket] closes over. *)
Record Pairing : Type := {
  yesTokenId : string;
  noTokenId : string;
  lastYesUpdate : option PriceUpdate;
  lastNoUpdate : option PriceUpdate
}.

(** The four listeners one call of [subscribeMarkets] attaches to the
    socket manager, with what they close over.  [pairing] is there when
    the call came from [subscribeMarket], whose [onPriceUpdate] wraps
    the caller's. *)
Record Registration : Type := {
  subscriptionId : nat;
  assetIds : list string;
  handlers : MarketSubscriptionHandlers;
  pairing : option Pairing
}.

Record Subscription : Type := {
  id : nat;
  sub_assetIds : list string
}.

(** The service: the listeners on [wsManager] in the order they were
    attached, the [subscriptions] map in insertion order, the counter. *)
Record Service : Type := {
  attached : list Registration;
  subscriptions : list (nat * Subscription);
  subscriptionIdCounter : nat
}.

Definition constructor : Service :=
  {| attached := []; subscriptions := []; subscriptionIdCounter := 0 |}.

(** [assetIds.includes(x)] *)
Definition includes (l : list string) (x : string) : bool :=
  existsb (String.eqb x) l.

(** [f?.(x)] for an optional callback. *)
Definition optionally (present : bool) (c : Call) : list Call :=
  if present then [c] else [].

Definition checkPairUpdate (n : nat) (h : MarketSubscriptionHandlers)
    (p : Pairing) : list Call :=
  match lastYesUpdate p, lastNoUpdate p with
  | Some y, Some no =>
      optionally (onPairUpdate h)
                 (call_onPairUpdate n y no (price y + price no)%Q)
  | _, _ => []
  end.

(** The assignment at the head of the wrapper of [subscribeMarket]. *)
Definition remember (update : PriceUpdate) (p : Pairing) : Pairing :=
  if String.eqb (assetId update) (yesTokenId p) then
    {| yesTokenId := yesTokenId p; noTokenId := noTokenId p;
       lastYesUpdate := Some update; lastNoUpdate := lastNoUpdate p |}
  else if String.eqb (assetId update) (noTokenId p) then
    {| yesTokenId := yesTokenId p; noTokenId := noTokenId p;
       lastYesUpdate := lastYesUpdate p; lastNoUpdate := Some update |}
  else p.

Definition priceHandler (update : PriceUpdate) (r : Registration)
  : Registration * list Call :=
  if includes (assetIds r) (assetId update) then
    match pairing r with
    | None =>
        (r, optionally (onPriceUpdate (handlers r))
                       (call_onPriceUpdate (subscriptionId r) update))
    | Some p =>
        let p' := remember update p in
        ({| subscriptionId := subscriptionId r; assetIds := assetIds r;
            handlers := handlers r; pairing := Some p' |},
         optionally (onPriceUpdate (handlers r))
                    (call_onPriceUpdate (subscriptionId r) update)
         ++ checkPairUpdate (subscriptionId r) (handlers r) p')
    end
  else (r, []).

Definition bookHandler (update : BookUpdate) (r : Registration) : list Call :=
  if includes (assetIds r) (book_assetId update) then
    optionally (onBookUpdate (handlers r))
               (call_onBookUpdate (subscriptionId r) update)
  else [].

Definition tradeHandler (trade : LastTrade) (r : Registration) : list Call :=
  if includes (assetIds r) (trade_assetId trade) then
    optionally (onLastTrade (handlers r))
               (call_onLastTrade (subscriptionId r) trade)
  else [].

Definition errorHandler (msg : string) (r : Registration) : list Call :=
  optionally (onError (handlers r)) (call_onError (subscriptionId r) msg).

(** The listener of a registration that the event names. *)
Definition listener (ev : WsEvent) (r : Registration)
  : Registration * list Call :=
  match ev with
  | priceUpdate u => priceHandler u r
  | bookUpdate u => (r, bookHandler u r)
  | lastTrade t => (r, tradeHandler t r)
  | error msg => (r, errorHandler msg r)
  end.

(** [wsManager.emit]: the listeners of the event run in the order they
    were attached. *)
Fixpoint emitAll (ev : WsEvent) (rs : list Registration)
  : list Registration * list Call :=
  match rs with
  | [] => ([], [])
  | r :: rest =>
      let (r', cs) := listener ev r in
      let (rest', cs') := emitAll ev rest in
      (r' :: rest', cs ++ cs')
  end.

Definition emit (ev : WsEvent) (s : Service) : Service * list Call :=
  let (rs, cs) := emitAll ev (attached s) in
  ({| attached := rs; subscriptions := subscriptions s;
      subscriptionIdCounter := subscriptionIdCounter s |}, cs).

(** [Map.prototype.set] and [delete], the map in insertion order. *)
Fixpoint Map_set {V} (k : nat) (v : V) (m : list (nat * V))
  : list (nat * V) :=
  match m with
  | [] => [(k, v)]
  | (k', v') :: m' =>
      if Nat.eqb k k' then (k, v) :: m' else (k', v') :: Map_set k v m'
  end.

Definition Map_delete {V} (k : nat) (m : list (nat * V)) : list (nat * V) :=
  filter (fun kv => negb (Nat.eqb k (fst kv))) m.

(** The body of [subscribeMarkets], [pairing'] telling whose
    [onPriceUpdate] it was given. *)
Definition subscribeWith (pairing' : option Pairing) (assetIds' : list string)
    (h : MarketSubscriptionHandlers) (s : Service) : Service * Subscription :=
  let n := S (subscriptionIdCounter s) in
  let subscription := {| id := n; sub_assetIds := assetIds' |} in
  ({| attached :=
        attached s ++ [{| subscriptionId := n; assetIds := assetIds';
                          handlers := h; pairing := pairing' |}];
      subscriptions := Map_set n subscription (subscriptions s);
      subscriptionIdCounter := n |},
   subscription).

Definition subscribeMarkets (assetIds' : list string)
    (h : MarketSubscriptionHandlers) (s : Service) : Service * Subscription :=
  subscribeWith None assetIds' h s.

Definition subscribeMarket (yes no : string)
    (h : MarketSubscriptionHandlers) (s : Service) : Service * Subscription :=
  subscribeWith
    (Some {| yesTokenId := yes; noTokenId := no;
             lastYesUpdate := None; lastNoUpdate := None |})
    [yes; no] h s.

(** [subscription.unsubscribe()] *)
Definition unsubscribe (n : nat) (s : Service) : Service :=
  {| attached :=
       filter (fun r => negb (Nat.eqb n (subscriptionId r))) (attached s);
     subscriptions := Map_delete n (subscriptions s);
     subscriptionIdCounter := subscriptionIdCounter s |}.

Inductive Action : Type :=
| call_subscribeMarkets (assetIds' : list string)
                        (h : MarketSubscriptionHandlers)
| call_subscribeMarket (yes no : string) (h : MarketSubscriptionHandlers)
| call_unsubscribe (n : nat)
| on_event (ev : WsEvent).

Definition step (a : Action) (s : Service) : Service :=
  match a with
  | call_subscribeMarkets ids h => fst (subscribeMarkets ids h s)
  | call_subscribeMarket yes no h => fst (subscribeMarket yes no h s)
  | call_unsubscribe n => unsubscribe n s
  | on_event ev => fst (emit ev s)
  end.

Definition run (trace : list Action) (s : Service) : Service :=
  fold_left (fun s a => step a s) trace s.

(** The asset a market frame is about; an error has none. *)
Definition frameAsset (ev : WsEvent) : option string :=
  match ev with
  | priceUpdate u => Some (assetId u)
  | bookUpdate u => Some (book_assetId u)
  | lastTrade t => Some (trade_assetId t)
  | error _ => None
  end.

(** The latest price update for an asset among the events so far. *)
Fixpoint latest (wanted : PriceUpdate -> bool) (evs : list WsEvent)
    (sofar : option PriceUpdate) : option PriceUpdate :=
  match evs with
  | [] => sofar
  | priceUpdate u :: rest =>
      latest wanted rest (if wanted u then Some u else sofar)
  | _ :: rest => latest wanted rest sofar
  end.

(** The events fed to the listeners of one registration, one after the
    other. *)
Fixpoint listenAll (evs : list WsEvent) (r : Registration)
  : Registration * list Call :=
  match evs with
  | [] => (r, [])
  | ev :: rest =>
      let (r', cs) := listener ev r in
      let (r'', cs') := listenAll rest r' in
      (r'', cs ++ cs')
  end.

(** *** Vocabulary of the properties *)

(** The price updates [subscribeMarket] keeps as the YES side and as the
    NO side. *)
Definition forYes (yes : string) (u : PriceUpdate) : bool :=
  String.eqb (assetId u) yes.

Definition forNo (yes no : string) (u : PriceUpdate) : bool :=
  negb (String.eqb (assetId u) yes) && String.eqb (assetId u) no.

(** *** Sample handlers and frames *)

Definition allHandlers : MarketSubscriptionHandlers :=
  {| onPriceUpdate := true; onBookUpdate := true; onLastTrade := true;
     onError := true; onPairUpdate := true |}.

Definition priceOf (asset : string) (p : Q) : WsEvent :=
  priceUpdate {| assetId := asset; price := p |}.

(** Subscription numbers are handed out once. *)
Definition wellNumbered (s : Service) : Prop :=
  NoDup (map subscriptionId (attached s))
  /\ Forall (fun n => (n <= subscriptionIdCounter s)%nat)
            (map subscriptionId (attached s)).

End RealtimeService.

(** ** The wallet service *)

Module WalletService.

(** The fields of a [Position] and of an [Activity] the score reads.
    A JavaScript number is taken as an exact rational, so every field
    is finite. *)
Record Position : Type := {
  percentPnl : option Q;
  cashPnl : option Q;
  realizedPnl : option Q
}.

Inductive ActivityType : Type := TRADE | SPLIT | MERGE | REDEEM | CONVERSION.

Record Activity : Type := {
  type : ActivityType;
  timestamp : Q
}.

(** [x || 0] on an optional number. *)
Definition orZero (x : option Q) : Q :=
  match x with Some q => q | None => 0%Q end.

Definition Math_min (a b : Q) : Q := if Qle_bool a b then a else b.
Definition Math_max (a b : Q) : Q := if Qle_bool a b then b else a.

(** [Math.round]: to the nearest integer, halves upwards. *)
Definition Math_round (x : Q) : Z := Qfloor (x + (1 # 2))%Q.

Definition len {A} (l : list A) : Q := inject_Z (Z.of_nat (List.length l)).

(** [l.reduce((sum, x) => sum + f(x), 0)] *)
Definition sumOf {A} (f : A -> Q) (l : list A) : Q :=
  fold_left (fun sum x => (sum + f x)%Q) l 0%Q.

Definition calculateVariance (values : list Q) : Q :=
  match values with
  | [] => 0%Q
  | _ =>
      let mean := (sumOf (fun v => v) values / len values)%Q in
      (sumOf (fun v => (v - mean) ^ 2) values / len values)%Q
  end.

Definition avgPnL (positions : list Position) : Q :=
  match positions with
  | [] => 0%Q
  | _ => (sumOf (fun p => orZero (percentPnl p)) positions / len positions)%Q
  end.

Definition pnlScore (positions : list Position) : Q :=
  Math_min 40 (Math_max 0 ((avgPnL positions + 50) / 100 * 40))%Q.

Definition winRate (positions : list Position) : Q :=
  let winningPositions :=
    filter (fun p => negb (Qle_bool (orZero (cashPnl p)) 0)) positions in
  match positions with
  | [] => 0%Q
  | _ => (len winningPositions / len positions)%Q
  end.

Definition winRateScore (positions : list Position) : Q :=
  (winRate positions * 30)%Q.

Definition consistencyScore (positions : list Position) : Q :=
  let pnlValues := map (fun p => orZero (percentPnl p)) positions in
  let variance := calculateVariance pnlValues in
  Math_max 0 (20 - variance / 10)%Q.

(** [now] is [Date.now()]. *)
Definition activityScore (now : Q) (activities : list Activity) : Q :=
  let recentTrades :=
    filter (fun a =>
              negb (Qle_bool (timestamp a)
                             (now - 7 * 24 * 60 * 60 * 1000)%Q))
           activities in
  Math_min 10 (len recentTrades / 5 * 10)%Q.

Definition calculateSmartScore (now : Q) (positions : list Position)
    (activities : list Activity) : Z :=
  Math_round (pnlScore positions + winRateScore positions
              + consistencyScore positions
              + activityScore now activities)%Q.

Record WalletProfile : Type := {
  address : string;
  totalPnL : Q;
  realizedPnL : Q;
  unrealizedPnL : Q;
  avgPercentPnL : Q;
  positionCount : Z;
  tradeCount : Z;
  smartScore : Z;
  lastActiveAt : Q
}.

(** [getWalletProfile(address)], [positions] and [activities] being
    what the data API answers. *)
Definition getWalletProfile (now : Q) (address' : string)
    (positions : list Position) (activities : list Activity)
  : WalletProfile :=
  let totalPnL' := sumOf (fun p => orZero (cashPnl p)) positions in
  let realizedPnL' := sumOf (fun p => orZero (realizedPnl p)) positions in
  {| address := address';
     totalPnL := totalPnL';
     realizedPnL := realizedPnL';
     unrealizedPnL := (totalPnL' - realizedPnL')%Q;
     avgPercentPnL := avgPnL positions;
     positionCount := Z.of_nat (List.length positions);
     tradeCount :=
       Z.of_nat (List.length
                   (filter (fun a => match type a with
                                     | TRADE => true | _ => false end)
                           activities));
     smartScore := calculateSmartScore now positions activities;
     lastActiveAt := match activities with
                     | a :: _ => timestamp a
                     | [] => 0%Q
                     end |}.

(** *** Sample positions *)

Definition position (percent cash : Q) : Position :=
  {| percentPnl := Some percent; cashPnl := Some cash; realizedPnl := None |}.

End WalletService.

(** ** More of the chain monitor *)

Module ChainMonitorSupport.
Import ChainMonitorClient.

(** [Array.prototype.includes] on strings. *)
Definition Array_includes (l : list string) (x : string) : bool :=
  existsb (String.eqb x) l.

(** The Polymarket contracts and the zero address, lower-cased. *)
Definition OFFICIAL_ADDRESSES : list string :=
  [toLowerCase "0x4bFb41d5B3570DeFd03C39a9A4D8dE6Bd8B8982E";
   toLowerCase "0xC5d563A36AE78145C45a50134d48A1215220f80a";
   toLowerCase "0x4D97DCd97eC945f40cF65F87097ACe5EA0476045";
   toLowerCase "0xd91E80cF2E7be2e162c6513ceD06f1dD0dA35296";
   toLowerCase "0x0000000000000000000000000000000000000000"].

Definition isOfficialAddress (address' : string) : bool :=
  Array_includes OFFICIAL_ADDRESSES (toLowerCase address').

(** What a step of the monitor does to the outside. *)
Definition stepEffects (a : Action) (m : Monitor) : list Effect :=
  match a with
  | call_connect now h ws => effects (connect now h ws m)
  | call_disconnect => snd (disconnect m)
  | on_close => snd (handleDisconnect m)
  | on_reconnectTimer ws => effects (reconnectTimer ws m)
  | on_pollTimer now h chain => snd (pollNewBlocks now h chain m)
  | on_transfer now e => effects (processEvent now e m)
  end.

Fixpoint runEffects (trace : list Action) (m : Monitor) : list Effect :=
  match trace with
  | [] => []
  | a :: rest => stepEffects a m ++ runEffects rest (step a m)
  end.

(** The transfers among the effects, in order. *)
Fixpoint transfersOf (es : list Effect) : list TransferEvent :=
  match es with
  | [] => []
  | emit_transfer e :: rest => e :: transfersOf rest
  | _ :: rest => transfersOf rest
  end.


(** The value of a decimal numeral read from the left, [acc] being the
    value of the digits before it. *)
Fixpoint uintValue (d : Decimal.uint) (acc : Z) : Z :=
  match d with
  | Decimal.Nil => acc
  | Decimal.D0 d => uintValue d (acc * 10)
  | Decimal.D1 d => uintValue d (acc * 10 + 1)
  | Decimal.D2 d => uintValue d (acc * 10 + 2)
  | Decimal.D3 d => uintValue d (acc * 10 + 3)
  | Decimal.D4 d => uintValue d (acc * 10 + 4)
  | Decimal.D5 d => uintValue d (acc * 10 + 5)
  | Decimal.D6 d => uintValue d (acc * 10 + 6)
  | Decimal.D7 d => uintValue d (acc * 10 + 7)
  | Decimal.D8 d => uintValue d (acc * 10 + 8)
  | Decimal.D9 d => uintValue d (acc * 10 + 9)
  end.

(** A stream that is at its [await] or inside a [yield] has one value
    to hand over at most before it looks at [isRunning] again. *)
Definition owed (s : Stream) : nat :=
  match position s with
  | at_await _ | at_yield _ => 1
  | _ => 0
  end.

(** What the statistics, the mode and the reconnect counter of a monitor
    always satisfy. *)
Definition agreeing (m : Monitor) : Prop :=
  mode (stats m) = currentMode m
  /\ (connected (stats m) = true ->
      currentMode m <> disconnected /\ isRunning m = true)
  /\ 0 <= reconnectAttempts m <= Z.max 0 (maxReconnectAttempts (config m)).

(** A monitor in polling mode, and a stream with a reader parked. *)
Definition pollingMonitor : Monitor :=
  after (connect 0 (Some 99) ws_rejected (constructor defaults)).

Definition parked : Stream := next true 1%nat subscribeAllTransfers.

End ChainMonitorSupport.

(** ** More of the realtime service *)

Module RealtimeRegistry.
Import RealtimeService.

(** [Map.prototype.get] *)
Fixpoint Map_get {V} (k : nat) (m : list (nat * V)) : option V :=
  match m with
  | [] => None
  | (k', v) :: m' => if Nat.eqb k k' then Some v else Map_get k m'
  end.

Definition getSubscription (n : nat) (s : Service) : option Subscription :=
  Map_get n (subscriptions s).



(** The map and the listeners go together. *)
Definition registered (s : Service) : Prop :=
  map subscriptionId (attached s) = map fst (subscriptions s)
  /\ map assetIds (attached s) = map (fun kv => sub_assetIds (snd kv))
                                     (subscriptions s)
  /\ Forall (fun kv => id (snd kv) = fst kv) (subscriptions s).

End RealtimeRegistry.

(** ** More of the wallet service *)

Module WalletActivities.
Import WalletService.

(** An [Activity] with the fields the reports read; [type] and [side]
    are the strings the data API sent. *)
Record Activity : Type := {
  type : string;
  side : string;
  size : Q;
  price : Q;
  usdcSize : option Q;
  conditionId : string;
  timestamp : Q
}.

Record Trade : Type := {
  proxyWallet : option string;
  trade_market : string
}.

(** [x || y] on an optional number: absent and zero are falsy. *)
Definition orElse (x : option Q) (y : Q) : Q :=
  match x with
  | Some q => if Qeq_bool q 0 then y else q
  | None => y
  end.

(** [[...new Set(l)]]: the first occurrence of every element. *)
Fixpoint unique (seen l : list string) : list string :=
  match l with
  | [] => []
  | x :: rest =>
      if existsb (String.eqb x) seen then unique seen rest
      else x :: unique (x :: seen) rest
  end.

Record ActivitySummary : Type := {
  totalBuys : nat;
  totalSells : nat;
  buyVolume : Q;
  sellVolume : Q;
  activeMarkets : list string
}.

(** [getWalletActivity(address, limit)], [activities] being what the
    data API answers. *)
Definition getWalletActivity (activities : list Activity) : ActivitySummary :=
  let buys := filter (fun a => String.eqb (side a) "BUY") activities in
  let sells := filter (fun a => String.eqb (side a) "SELL") activities in
  {| totalBuys := List.length buys;
     totalSells := List.length sells;
     buyVolume := sumOf (fun a => orElse (usdcSize a) 0) buys;
     sellVolume := sumOf (fun a => orElse (usdcSize a) 0) sells;
     activeMarkets := unique [] (map conditionId activities) |}.






(** [walletCounts], a [Map] from wallets to counts in insertion order:
    [get], and [set], which keeps the place of a key that is present. *)
Fixpoint walletCounts_get (w : string) (counts : list (string * nat))
  : option nat :=
  match counts with
  | [] => None
  | (w', c) :: rest =>
      if String.eqb w w' then Some c else walletCounts_get w rest
  end.

Fixpoint walletCounts_set (w : string) (c : nat)
    (counts : list (string * nat)) : list (string * nat) :=
  match counts with
  | [] => [(w, c)]
  | (w', c') :: rest =>
      if String.eqb w w' then (w', c) :: rest
      else (w', c') :: walletCounts_set w c rest
  end.

(** [walletCounts.set(w, (walletCounts.get(w) || 0) + 1)] *)
Definition bump (w : string) (counts : list (string * nat))
  : list (string * nat) :=
  walletCounts_set w
    (match walletCounts_get w counts with Some c => c | None => 0 end + 1)%nat
    counts.

(** A wallet counts when [trade.proxyWallet] is truthy. *)
Definition walletOf (t : Trade) : option string :=
  match proxyWallet t with
  | Some EmptyString | None => None
  | Some w => Some w
  end.

Definition countWallets (trades : list Trade) : list (string * nat) :=
  fold_left (fun counts t => match walletOf t with
                             | Some w => bump w counts
                             | None => counts
                             end)
            trades [].

(** The stable sort with [(a, b) => b[1] - a[1]]. *)
Fixpoint insertByCount (e : string * nat) (l : list (string * nat))
  : list (string * nat) :=
  match l with
  | [] => [e]
  | x :: l' =>
      if (snd x <? snd e)%nat then e :: l else x :: insertByCount e l'
  end.

Definition sortByCount (l : list (string * nat)) : list (string * nat) :=
  fold_left (fun acc e => insertByCount e acc) l [].

(** [l.slice(0, limit)]; a negative [limit] counts from the end. *)
Definition slice0 {A} (l : list A) (limit : Z) : list A :=
  let len := Z.of_nat (List.length l) in
  firstn (Z.to_nat (if limit <? 0 then Z.max (len + limit) 0
                    else Z.min limit len)) l.

(** [discoverActiveWallets(limit)], [trades] being the recent trades. *)
Definition discoverActiveWallets (trades : list Trade) (limit : Z)
  : list (string * nat) :=
  slice0 (sortByCount (countWallets trades)) limit.

(** The trades of a wallet. *)
Definition tradesOf (w : string) (trades : list Trade) : nat :=
  List.length (filter (fun t => match walletOf t with
                                | Some w' => String.eqb w w'
                                | None => false
                                end) trades).

End WalletActivities.

(** ** The data API client *)

Module DataApiClient.

(** A timestamp as it comes out of the JSON of the API. *)
Inductive Json : Type :=
| Jnumber (n : Q)
| Jstring (s : string)
| Jother.

Definition isWhiteSpace (c : ascii) : bool :=
  let n := code c in
  ((9 <=? n) && (n <=? 13)) || (n =? 32).

Fixpoint trimStart (s : string) : string :=
  match s with
  | String c rest => if isWhiteSpace c then trimStart rest else s
  | EmptyString => EmptyString
  end.

(** The digits at the head of a string, [None] when there is none. *)
Fixpoint leadingDigits (acc : option Z) (s : string) : option Z :=
  match s with
  | String c rest =>
      match decDigit c with
      | Some d =>
          leadingDigits (Some (match acc with Some a => a * 10 | None => 0 end
                               + d)) rest
      | None => acc
      end
  | EmptyString => acc
  end.

(** [parseInt(s, 10)]; [None] is [NaN]. *)
Definition parseInt (s : string) : option Z :=
  match trimStart s with
  | String "-" rest => option_map Z.opp (leadingDigits None rest)
  | String "+" rest => leadingDigits None rest
  | rest => leadingDigits None rest
  end.

(** [num < 1e12 ? num * 1000 : num] *)
Definition toMilliseconds (num : Q) : Q :=
  if negb (Qle_bool 1000000000000 num) then (num * 1000)%Q else num.

(** [normalizeTimestamp(ts)]; [now] is [Date.now()], [None] is [NaN]. *)
Definition normalizeTimestamp (now : Q) (ts : Json) : option Q :=
  match ts with
  | Jnumber n => Some (toMilliseconds n)
  | Jstring s => option_map (fun z => toMilliseconds (inject_Z z)) (parseInt s)
  | Jother => Some now
  end.

(** The decimal numeral of an integer, as [String(n)] writes it. *)
Definition numeral (z : Z) : string := BigNumber_toString z.

Record LeaderboardEntry : Type := {
  address : string;
  rank : Z;
  pnl : Q;
  volume : Q
}.

Record LeaderboardPage : Type := {
  entries : list LeaderboardEntry;
  total : Z;
  offset : Z;
  limit : Z
}.

(** The leaderboard endpoint: the entries it answers with for an offset
    and a limit. *)
Definition Endpoint : Type := Z -> Z -> list LeaderboardEntry.

(** [x || d] on numbers. *)
Definition orNumber (x : option Z) (d : Z) : Z :=
  match x with
  | Some n => if n =? 0 then d else n
  | None => d
  end.

(** [getLeaderboard(params)] on an endpoint that answers. *)
Definition getLeaderboard (endpoint : Endpoint)
    (limit' offset' : option Z) : LeaderboardPage :=
  let limit := orNumber limit' 50 in
  let offset := orNumber offset' 0 in
  let entries := endpoint offset limit in
  {| entries := entries;
     total := Z.of_nat (List.length entries) + offset;
     offset := offset;
     limit := limit |}.

(** The loop of [getAllLeaderboard]: what has been gathered and the
    offsets asked for; [None] when [fuel] rounds were not enough. *)
Fixpoint gather (fuel : nat) (endpoint : Endpoint) (maxEntries : nat)
    (all : list LeaderboardEntry) (offset' : Z) (asked : list Z)
  : option (list LeaderboardEntry * list Z) :=
  if (List.length all <? maxEntries)%nat then
    match fuel with
    | O => None
    | S fuel' =>
        let page := getLeaderboard endpoint (Some 50) (Some offset') in
        let all' := all ++ entries page in
        if (List.length (entries page) <? 50)%nat
        then Some (all', asked ++ [offset'])
        else gather fuel' endpoint maxEntries all' (offset' + 50)
                    (asked ++ [offset'])
    end
  else Some (all, asked).

(** [getAllLeaderboard(maxEntries)] with the offsets it asked for. *)
Definition getAllLeaderboard (endpoint : Endpoint) (maxEntries : nat)
  : option (list LeaderboardEntry * list Z) :=
  match gather (S maxEntries) endpoint maxEntries [] 0 [] with
  | Some (all, asked) => Some (firstn maxEntries all, asked)
  | None => None
  end.

End DataApiClient.

(** * Properties *)

(** ** The pull-based stream of the chain monitor *)

Import ChainMonitorClient.

Section StreamFacts.

Lemma emitted_snoc t a : emitted (t ++ [a]) = emitted t ++ heldBy a.
Proof.
  induction t as [|b t IH]; simpl.
  - destruct a; reflexivity.
  - destruct b; simpl; rewrite IH; reflexivity.
Qed.

Lemma requested_snoc t a : requested (t ++ [a]) = requested t ++ askedBy a.
Proof.
  induction t as [|b t IH]; simpl.
  - destruct a; reflexivity.
  - destruct b; simpl; rewrite IH; reflexivity.
Qed.

Lemma heard_snoc t a :
  heard (t ++ [a]) =
  match requested t with [] => [] | _ :: _ => heard t ++ heldBy a end.
Proof.
  induction t as [|b t IH]; simpl.
  - destruct a; reflexivity.
  - destruct b; simpl; auto. apply emitted_snoc.
Qed.

Lemma heard_unrequested t : requested t = [] -> heard t = [].
Proof.
  induction t as [|b t IH]; simpl; auto.
  destruct b; simpl; auto. discriminate.
Qed.

Lemma streamRun_snoc running t a s :
  streamRun running (t ++ [a]) s = streamStep running a (streamRun running t s).
Proof. unfold streamRun. rewrite fold_left_app. reflexivity. Qed.

Lemma values_app d d' : values (d ++ d') = values d ++ values d'.
Proof.
  induction d as [|[r [e|]] d IH]; simpl; auto. rewrite IH. reflexivity.
Qed.

Ltac lists :=
  repeat match goal with
    | |- _ /\ _ => split
    | |- _ <-> _ => split; intros
    | |- _ <> _ => intros ?
    | N : ?x <> [], H : ?x = [] |- _ => destruct (N H)
    | H : _ ++ _ :: _ = [] |- _ => apply app_eq_nil in H; destruct H
    | H : _ ++ ?x = [], N : ?x <> [] |- _ => apply app_eq_nil in H; destruct H
    | H : _ ++ [] = _ |- _ => rewrite app_nil_r in H
    end;
  simpl in *; subst; try discriminate; try congruence; try tauto;
  rewrite ?values_app, ?map_app, ?length_app; simpl;
  rewrite <- ?app_assoc, ?app_nil_r; simpl;
  try congruence; try lia; auto.

Lemma tracks_step t a s :
  tracks t s -> tracks (t ++ [a]) (streamStep true a s).
Proof.
  unfold tracks, consistent, pending, inFlight.
  intros (C & St & H & R & V).
  rewrite heard_snoc, requested_snoc.
  destruct s as [q rn p rq dl]; simpl in *.
  assert (Hs : (p = at_start /\ requested t = [] /\ heard t = [])
               \/ (p <> at_start /\ exists r0 t0, requested t = r0 :: t0)).
  { destruct (requested t) as [|r0 t0] eqn:E.
    - left. split; [now apply St|]. split; auto. now apply heard_unrequested.
    - right. split; [intros X; apply St in X; discriminate | eauto]. }
  clear St.
  destruct Hs as [(-> & Rq & Hd) | (Hp & r0 & t0 & Rq)].
  - destruct C as (-> & -> & -> & ->). rewrite Rq in *. simpl in *.
    destruct a as [r|e|]; simpl; unfold next, emitTo, microtask; simpl; lists.
  - assert (M : forall X : list TransferEvent,
               match requested t with [] => [] | _ :: _ => X end = X)
      by (rewrite Rq; reflexivity).
    assert (Hne : requested t <> []) by (rewrite Rq; discriminate).
    rewrite M, H. rewrite R in Hne |- *. clear M H R Rq.
    destruct a as [r|e|]; simpl.
    + unfold next; simpl.
      destruct p as [|[e'|]|e'| |]; simpl in *; try contradiction;
        try congruence.
      * destruct C as (-> & Hr). lists.
      * destruct C as (-> & -> & Hr). lists.
      * destruct C as (-> & Hr). lists.
      * destruct C as (-> & ->). destruct q; simpl; lists.
    + unfold emitTo, listening, handler; simpl.
      destruct p as [|[e'|]|e'| |]; simpl in *; try contradiction;
        try congruence.
      * destruct C as (-> & Hr). lists.
      * destruct C as (-> & -> & Hr). lists.
      * destruct C as (-> & Hr). lists.
      * destruct C as (-> & ->). lists.
    + unfold microtask; simpl.
      destruct p as [|[e'|]|e'| |]; simpl in *; try contradiction;
        try congruence.
      * destruct C as (-> & Hr). lists.
      * destruct C as (-> & -> & Hr). lists.
      * destruct C as (-> & Hr).
        destruct rq as [|r [|r' rq]]; [congruence| |]; simpl.
        -- lists.
        -- unfold loop; simpl. destruct q; simpl; lists.
      * destruct C as (-> & ->). lists.
Qed.

Lemma tracks_run t : tracks t (streamRun true t subscribeAllTransfers).
Proof.
  induction t as [|a t IH] using rev_ind.
  - unfold tracks, consistent, pending; simpl. tauto.
  - rewrite streamRun_snoc. now apply tracks_step.
Qed.

Lemma values_length d : (List.length (values d) <= List.length d)%nat.
Proof. induction d as [|[r [e|]] d IH]; simpl; lia. Qed.

Lemma delivered_pairs d :
  List.length (values d) = List.length d ->
  d = combine (map fst d) (map Some (values d)).
Proof.
  induction d as [|[r [e|]] d IH]; simpl; intros L; auto.
  - f_equal. apply IH. lia.
  - pose proof (values_length d). lia.
Qed.

Lemma combine_append {A B} (a a' : list A) (b b' : list B) :
  List.length a = List.length b ->
  combine (a ++ a') (b ++ b') = combine a b ++ combine a' b'.
Proof.
  revert b. induction a as [|x a IH]; destruct b as [|y b]; simpl;
    intros L; try discriminate; auto.
  f_equal. apply IH. lia.
Qed.

Lemma tracks_prefix t s :
  tracks t s ->
  combine (requested t) (map Some (heard t)) =
  delivered s ++ combine (requests s) (map Some (pending s)).
Proof.
  intros (_ & _ & H & R & V).
  rewrite H, R, map_app, combine_append.
  - now rewrite <- delivered_pairs.
  - now rewrite !length_map.
Qed.

Lemma quiet_microtask s : consistent s -> quiet s -> microtask true s = s.
Proof.
  unfold consistent, quiet, pending, inFlight, microtask.
  destruct s as [q rn p rq dl]; simpl.
  destruct p as [|[e'|]|e'| |]; simpl; auto; intros C [Q|Q];
    try discriminate; tauto.
Qed.

Lemma quiet_microtasks n s :
  consistent s -> quiet s -> streamRun true (repeat do_microtask n) s = s.
Proof.
  intros C Q. induction n as [|n IH]; auto.
  cbn [repeat].
  change (streamRun true (do_microtask :: repeat do_microtask n) s)
    with (streamRun true (repeat do_microtask n) (microtask true s)).
  now rewrite quiet_microtask.
Qed.

Lemma progress s n :
  consistent s -> (backlog s <= S n)%nat ->
  quiet s \/ (backlog (microtask true s) <= n)%nat.
Proof.
  unfold consistent, quiet, backlog, pending, inFlight, microtask.
  destruct s as [q rn p rq dl]; simpl.
  destruct p as [|[e'|]|e'| |]; simpl; intros C B; try tauto.
  - right. lia.
  - right. destruct rq as [|r [|r' rq]]; simpl;
      [destruct C; congruence | lia |].
    unfold loop; simpl. destruct q; simpl in *; lia.
Qed.

Lemma settle n : forall t s,
  tracks t s -> (backlog s <= n)%nat ->
  quiet (streamRun true (repeat do_microtask n) s).
Proof.
  induction n as [|n IH]; intros t s T B.
  - simpl. destruct T as (C & _). revert C B.
    unfold consistent, quiet, backlog, pending, inFlight.
    destruct s as [q rn p rq dl]; simpl.
    destruct p as [|[e'|]|e'| |]; simpl; intros C B; try lia; try tauto;
      destruct q; simpl in *; try lia; auto.
  - destruct (progress s n) as [Q|P]; auto; [apply T| |].
    + rewrite quiet_microtasks; auto. apply T.
    + cbn [repeat].
      change (streamRun true (do_microtask :: repeat do_microtask n) s)
        with (streamRun true (repeat do_microtask n) (microtask true s)).
      apply (IH (t ++ [do_microtask])); auto.
      now apply (tracks_step t do_microtask).
Qed.

Lemma tracks_microtasks n : forall t s,
  tracks t s ->
  tracks (t ++ repeat do_microtask n)
         (streamRun true (repeat do_microtask n) s).
Proof.
  induction n as [|n IH]; intros t s T.
  - simpl. now rewrite app_nil_r.
  - cbn [repeat].
    replace (t ++ do_microtask :: repeat do_microtask n)
      with ((t ++ [do_microtask]) ++ repeat do_microtask n)
      by now rewrite <- app_assoc.
    change (streamRun true (do_microtask :: repeat do_microtask n) s)
      with (streamRun true (repeat do_microtask n) (microtask true s)).
    apply IH. now apply (tracks_step t do_microtask).
Qed.

Lemma requested_microtasks t n :
  requested (t ++ repeat do_microtask n) = requested t.
Proof.
  induction n as [|n IH]; [now rewrite app_nil_r|].
  replace (t ++ repeat do_microtask (S n))
    with ((t ++ repeat do_microtask n) ++ [do_microtask]).
  - rewrite requested_snoc, IH. apply app_nil_r.
  - rewrite <- app_assoc. f_equal.
    change [do_microtask] with (repeat do_microtask 1).
    rewrite <- repeat_app. f_equal. lia.
Qed.

Lemma heard_microtasks t n :
  heard (t ++ repeat do_microtask n) = heard t.
Proof.
  induction n as [|n IH]; [now rewrite app_nil_r|].
  replace (t ++ repeat do_microtask (S n))
    with ((t ++ repeat do_microtask n) ++ [do_microtask]).
  - rewrite heard_snoc, requested_microtasks, IH.
    destruct (requested t) eqn:E; [symmetry; now apply heard_unrequested|].
    apply app_nil_r.
  - rewrite <- app_assoc. f_equal.
    change [do_microtask] with (repeat do_microtask 1).
    rewrite <- repeat_app. f_equal. lia.
Qed.

End StreamFacts.

(** C1, as the code has it.  Readers that pull from one stream object of
    a running monitor split the events: the i-th event emitted after the
    first [next()] of the stream goes to the reader whose [next()] was
    the i-th, and to no other.  At any moment what has been delivered is
    an initial part of that pairing, the events heard are those
    delivered followed by those still held, in order of arrival, and the
    requests made are those answered followed by those still waiting;
    once the pending microtasks have run, every event that has a request
    is delivered.  No event is lost, none is delivered twice, and the
    order is that of arrival. *)
Theorem stream_hands_each_event_to_one_reader :
  forall trace : list StreamAction,
    let s := streamRun true trace subscribeAllTransfers in
    let settled :=
      streamRun true
        (trace ++ repeat do_microtask (S (List.length (heard trace))))
        subscribeAllTransfers in
    delivered s =
      firstn (List.length (delivered s))
             (combine (requested trace) (map Some (heard trace)))
    /\ heard trace = values (delivered s) ++ pending s
    /\ requested trace = map fst (delivered s) ++ requests s
    /\ delivered settled = combine (requested trace) (map Some (heard trace)).
Proof.
  intros trace s settled.
  pose proof (tracks_run trace) as T. fold s in T.
  split; [|split; [|split]].
  - rewrite (tracks_prefix _ _ T), firstn_app, Nat.sub_diag, firstn_all.
    simpl. now rewrite app_nil_r.
  - apply T.
  - apply T.
  - subst settled. unfold streamRun at 1. rewrite fold_left_app.
    fold (streamRun true trace subscribeAllTransfers). fold s.
    fold (streamRun true (repeat do_microtask (S (List.length (heard trace)))) s).
    pose proof (tracks_microtasks (S (List.length (heard trace))) trace s T)
      as T'.
    assert (Q : quiet (streamRun true
                 (repeat do_microtask (S (List.length (heard trace)))) s)).
    { apply (settle _ trace); auto.
      destruct T as (_ & _ & H & _). rewrite H, length_app.
      unfold backlog. destruct (position s) as [|[?|]|?| |]; lia. }
    pose proof (tracks_prefix _ _ T') as P.
    rewrite requested_microtasks, heard_microtasks in P.
    rewrite P. destruct Q as [-> | ->]; simpl.
    + now rewrite combine_nil, app_nil_r.
    + now rewrite app_nil_r.
Qed.

(** C1 as stated does not hold of two readers that each call
    [subscribeAllTransfers()]: every call makes a stream with a queue
    and a listener of its own, and the one transfer is delivered to
    both readers. *)
Lemma two_subscriptions_both_receive :
  deliveries (hubRun true twoSubscriptions []) =
    [(1%nat, Some (transfer "500")); (2%nat, Some (transfer "500"))]
  /\ ~ (forall trace : list HubAction,
          NoDup (hubEmitted trace) -> toOneReader (hubRun true trace [])).
Proof.
  assert (D : deliveries (hubRun true twoSubscriptions []) =
              [(1%nat, Some (transfer "500")); (2%nat, Some (transfer "500"))])
    by reflexivity.
  split; [exact D|].
  intros H.
  specialize (H twoSubscriptions).
  assert (N : NoDup (hubEmitted twoSubscriptions)).
  { simpl. constructor; [intros []|constructor]. }
  specialize (H N (transfer "500") 1%nat 2%nat).
  rewrite D in H. simpl in H.
  assert (1 = 2)%nat by (apply H; auto).
  discriminate.
Qed.

(** One stream, two readers: reader 1 asks twice and reader 2 once
    before anything arrives, a batch of three transfers follows, a
    fourth comes later and reader 2 asks again.  The transfers go out in
    the order of the requests. *)
Example one_stream_two_readers :
  delivered
    (streamRun true
       [do_next 1%nat; do_next 2%nat; do_next 1%nat;
        do_emit (transfer "1"); do_emit (transfer "2");
        do_emit (transfer "3");
        do_microtask; do_microtask; do_microtask; do_microtask;
        do_emit (transfer "4"); do_next 2%nat; do_microtask]
       subscribeAllTransfers)
  = [(1%nat, Some (transfer "1")); (2%nat, Some (transfer "2"));
     (1%nat, Some (transfer "3")); (2%nat, Some (transfer "4"))].
Proof. reflexivity. Qed.

(** ** The chain monitor *)

Section MonitorFacts.

Lemma control_processEvent now e m :
  control (after (processEvent now e m)) = control m.
Proof.
  unfold processEvent.
  destruct (BigNumber_from (minTransferValue (config m))) as [t|]; auto.
  destruct (0 <? t); auto.
  destruct (BigNumber_from (amount e)) as [a|]; auto.
  destruct (a <? t); auto.
Qed.

Lemma control_processAll now es : forall m,
  control (after (processAll now es m)) = control m.
Proof.
  induction es as [|e es IH]; intros m; simpl; auto.
  destruct (completion (processEvent now e m)) eqn:E.
  - simpl. rewrite IH. apply control_processEvent.
  - apply control_processEvent.
Qed.

Lemma control_pollNewBlocks now h chain m :
  control (fst (pollNewBlocks now h chain m)) = control m.
Proof.
  unfold pollNewBlocks.
  destruct (httpProvider m) eqn:Hp; auto.
  destruct (isRunning m); auto. simpl.
  destruct h as [b|]; auto.
  destruct (lastScannedBlock m <? b); auto.
  destruct (getHistoricalTransfers chain (lastScannedBlock m + 1) b m)
    as [es|]; auto.
  destruct (completion (processAll now es m)) eqn:E; simpl.
  - rewrite <- (control_processAll now es m). reflexivity.
  - apply control_processAll.
Qed.

Ltac project H :=
  unfold control in H;
  injection H as Ccfg Chttp Cws Crun Cmode Ctimer Catt Csmode Cconn.

(** Only [disconnect] writes [disconnected] into the mode. *)
Lemma step_mode a m :
  getMode (step a m) = disconnected ->
  a = call_disconnect \/ getMode m = disconnected.
Proof.
  unfold getMode. destruct a as [now h ws| | |ws|now h chain|now e]; simpl; auto.
  - unfold connect. destruct (isRunning m); simpl; auto.
    destruct h as [b|]; simpl; auto.
    destruct (wsEnabled (config m)); simpl.
    + unfold connectOrPoll. destruct ws; simpl; auto;
        unfold startPolling; simpl; destruct (pollingTimer m); simpl; auto;
        discriminate.
    + unfold startPolling; simpl; destruct (pollingTimer m); simpl; auto;
        discriminate.
  - unfold handleDisconnect. destruct (isRunning m); simpl; auto.
    destruct (wsProvider m); simpl;
      destruct (autoReconnect (config m)
                && (reconnectAttempts m <? maxReconnectAttempts (config m)));
      simpl; auto;
      destruct (currentMode m) eqn:E; simpl; auto;
      unfold startPolling; simpl; destruct (pollingTimer m); simpl; auto;
      congruence.
  - unfold reconnectTimer. destruct (isRunning m); simpl; auto.
    unfold connectOrPoll. destruct ws; simpl; auto;
      unfold startPolling; simpl; destruct (pollingTimer m); simpl; auto;
      discriminate.
  - intros H. right. pose proof (control_pollNewBlocks now h chain m) as C.
    project C. congruence.
  - intros H. right. pose proof (control_processEvent now e m) as C.
    project C. congruence.
Qed.

Lemma run_mode trace : forall m,
  existsb isTeardown trace = false ->
  getMode m <> disconnected ->
  getMode (run trace m) <> disconnected.
Proof.
  induction trace as [|a trace IH]; intros m N H; simpl; auto.
  simpl in N. apply orb_false_iff in N as [Na N].
  apply IH; auto. intros X. apply step_mode in X as [->|X]; auto.
  discriminate.
Qed.

Lemma sound_constructor c : sound (constructor c).
Proof. split; auto. Qed.

Lemma sound_step a m : sound m -> sound (step a m).
Proof.
  unfold sound. intros [T P].
  destruct a as [now h ws| | |ws|now h chain|now e]; simpl.
  - unfold connect. destruct (isRunning m) eqn:R; simpl; rewrite ?R;
      [split; [discriminate|exact P]|].
    destruct h as [b|]; simpl; [|split; discriminate].
    destruct (wsEnabled (config m)); destruct ws;
      unfold connectOrPoll, startPolling; simpl;
      rewrite ?(T eq_refl); simpl; split; discriminate.
  - split; auto.
  - unfold handleDisconnect. destruct (isRunning m) eqn:R; simpl;
      rewrite ?R; [|split; [exact T|exact P]].
    destruct (httpProvider m) eqn:Hp; [|destruct P; auto; discriminate].
    destruct (wsProvider m); simpl;
      destruct (autoReconnect (config m)
                && (reconnectAttempts m <? maxReconnectAttempts (config m)));
      simpl; try (rewrite R, Hp; split; discriminate);
      destruct (Mode_eqb (currentMode m) websocket); simpl;
      try (rewrite R, Hp; split; discriminate);
      unfold startPolling; simpl; destruct (pollingTimer m); simpl;
      rewrite R, Hp; split; discriminate.
  - unfold reconnectTimer. destruct (isRunning m) eqn:R; simpl;
      rewrite ?R; [|split; [exact T|exact P]].
    destruct (httpProvider m) eqn:Hp; [|destruct P; auto; discriminate].
    unfold connectOrPoll. destruct ws; simpl;
      try (rewrite R, Hp; split; discriminate);
      unfold startPolling; simpl; destruct (pollingTimer m); simpl;
      rewrite R, Hp; split; discriminate.
  - pose proof (control_pollNewBlocks now h chain m) as C. project C.
    rewrite Crun, Ctimer, Chttp, Cconn. now split.
  - pose proof (control_processEvent now e m) as C. project C.
    rewrite Crun, Ctimer, Chttp, Cconn. now split.
Qed.

Lemma sound_run trace : forall m, sound m -> sound (run trace m).
Proof.
  induction trace as [|a trace IH]; intros m S; simpl; auto.
  apply IH. now apply sound_step.
Qed.

(** [handleDisconnect] with the reconnect attempts used up, on a running
    monitor in push mode: polling mode where no polling timer is set,
    nothing but [connected = false] where one is. *)
Lemma handleDisconnect_exhausted m :
  isRunning m = true ->
  currentMode m = websocket ->
  autoReconnect (config m) = true ->
  maxReconnectAttempts (config m) <= reconnectAttempts m ->
  let m' := fst (handleDisconnect m) in
  match pollingTimer m with
  | None =>
      currentMode m' = polling /\ mode (stats m') = polling
      /\ connected (stats m') = true /\ pollingTimer m' = Some obj
  | Some t =>
      currentMode m' = websocket /\ mode (stats m') = mode (stats m)
      /\ connected (stats m') = false /\ pollingTimer m' = Some t
  end
  /\ wsProvider m' = None
  /\ reconnectAttempts m' = reconnectAttempts m
  /\ isRunning m' = true.
Proof.
  intros R W A B.
  assert (E : (reconnectAttempts m <? maxReconnectAttempts (config m)) = false)
    by (apply Z.ltb_ge; exact B).
  unfold handleDisconnect. rewrite R. simpl.
  destruct (wsProvider m) eqn:P; simpl; rewrite A, E, W; simpl;
    unfold startPolling; simpl;
    destruct (pollingTimer m) eqn:T; simpl; rewrite ?T, ?P; auto 10.
Qed.

Lemma httpProvider_kept a m :
  httpProvider m <> None -> httpProvider (step a m) <> None.
Proof.
  destruct a as [now h ws| | |ws|now h chain|now e]; simpl; auto.
  - unfold connect. destruct (isRunning m); simpl; auto.
    intros _. destruct h as [b|]; simpl; [|discriminate].
    destruct (wsEnabled (config m)); destruct ws;
      unfold connectOrPoll, startPolling; simpl;
      destruct (pollingTimer m); simpl; discriminate.
  - unfold handleDisconnect. destruct (isRunning m); simpl; auto.
    destruct (wsProvider m); simpl;
      destruct (autoReconnect (config m)
                && (reconnectAttempts m <? maxReconnectAttempts (config m)));
      simpl; auto;
      destruct (Mode_eqb (currentMode m) websocket); simpl; auto;
      unfold startPolling; simpl; destruct (pollingTimer m); simpl; auto.
  - unfold reconnectTimer. destruct (isRunning m); simpl; auto.
    destruct ws; unfold connectOrPoll, startPolling; simpl;
      destruct (pollingTimer m); simpl; auto.
  - pose proof (control_pollNewBlocks now h chain m) as C. project C.
    now rewrite Chttp.
  - pose proof (control_processEvent now e m) as C. project C.
    now rewrite Chttp.
Qed.

Lemma httpProvider_kept_run trace : forall m,
  httpProvider m <> None -> httpProvider (run trace m) <> None.
Proof.
  induction trace as [|a trace IH]; intros m H; simpl; auto.
  apply IH. now apply httpProvider_kept.
Qed.

Lemma httpProvider_untouched a m :
  isConnectCall a = false -> httpProvider m = None ->
  httpProvider (step a m) = None.
Proof.
  destruct a as [now h ws| | |ws|now h chain|now e]; simpl; auto;
    try discriminate; intros _ Hp.
  - unfold handleDisconnect. destruct (isRunning m); simpl; auto.
    destruct (wsProvider m); simpl;
      destruct (autoReconnect (config m)
                && (reconnectAttempts m <? maxReconnectAttempts (config m)));
      simpl; auto;
      destruct (Mode_eqb (currentMode m) websocket); simpl; auto;
      unfold startPolling; simpl; destruct (pollingTimer m); simpl; auto.
  - unfold reconnectTimer. destruct (isRunning m); simpl; auto.
    destruct ws; unfold connectOrPoll, startPolling; simpl;
      destruct (pollingTimer m); simpl; auto.
  - pose proof (control_pollNewBlocks now h chain m) as C. project C.
    now rewrite Chttp.
  - pose proof (control_processEvent now e m) as C. project C.
    now rewrite Chttp.
Qed.

Lemma httpProvider_connect now h ws m :
  isRunning m = false ->
  httpProvider (step (call_connect now h ws) m) <> None.
Proof.
  intros R. simpl. unfold connect. rewrite R.
  destruct h as [b|]; simpl; [|discriminate].
  destruct (wsEnabled (config m)); destruct ws;
    unfold connectOrPoll, startPolling; simpl;
    destruct (pollingTimer m); simpl; discriminate.
Qed.

Lemma httpProvider_run trace : forall m,
  sound m -> httpProvider m = None ->
  (httpProvider (run trace m) = None <-> existsb isConnectCall trace = false).
Proof.
  induction trace as [|a trace IH]; intros m S Hp; simpl; [tauto|].
  destruct (isConnectCall a) eqn:E; simpl.
  - destruct a; try discriminate.
    split; [|discriminate]. intros X. exfalso.
    revert X. apply httpProvider_kept_run, httpProvider_connect.
    now apply S.
  - apply IH; [now apply sound_step | now apply httpProvider_untouched].
Qed.

Lemma insertByBlock_perm e l : Permutation (insertByBlock e l) (e :: l).
Proof.
  induction l as [|x l IH]; simpl; auto.
  destruct (blockNumber e <? blockNumber x); auto.
  rewrite IH. apply perm_swap.
Qed.

Lemma insertByBlock_sorted e l :
  StronglySorted ascending l -> StronglySorted ascending (insertByBlock e l).
Proof.
  induction 1 as [|x l S IH F]; simpl.
  - repeat constructor.
  - destruct (blockNumber e <? blockNumber x) eqn:E.
    + apply Z.ltb_lt in E. constructor; [now constructor|].
      constructor; [unfold ascending; lia|].
      eapply Forall_impl; [|exact F]. unfold ascending. intros; lia.
    + apply Z.ltb_ge in E. constructor; auto.
      rewrite insertByBlock_perm. constructor; auto.
Qed.

Lemma sortByBlock_spec l : forall acc,
  StronglySorted ascending acc ->
  StronglySorted ascending (fold_left (fun acc e => insertByBlock e acc) l acc)
  /\ Permutation (fold_left (fun acc e => insertByBlock e acc) l acc)
                 (acc ++ l).
Proof.
  induction l as [|e l IH]; intros acc S; simpl.
  - rewrite app_nil_r. auto.
  - destruct (IH (insertByBlock e acc)) as [S' P];
      [now apply insertByBlock_sorted|].
    split; auto. rewrite P, insertByBlock_perm.
    apply (Permutation_middle acc l e).
Qed.

Lemma sortByBlock_sorted l : StronglySorted ascending (sortByBlock l).
Proof. apply sortByBlock_spec. constructor. Qed.

Lemma sortByBlock_perm l : Permutation (sortByBlock l) l.
Proof. apply (sortByBlock_spec l []). constructor. Qed.

Lemma parseTransferLog_block log b e :
  parseTransferLog log b = Some e -> blockNumber e = log_blockNumber log.
Proof.
  unfold parseTransferLog. destruct (log_args log) as [args|]; [|discriminate].
  destruct (nth_error args 1), (nth_error args 2), (nth_error args 3),
    (nth_error args 4), (nth_error args 0); try discriminate.
  destruct (Arg_toLowerCase a), (Arg_toLowerCase a0), (Arg_toLowerCase a3);
    try discriminate.
  intros [= <-]. reflexivity.
Qed.

Lemma parseAll_In logs e :
  In e (parseAll logs) <->
  exists log, In log logs /\ parseTransferLog log false = Some e.
Proof.
  induction logs as [|l logs IH]; simpl.
  - split; [tauto | intros (? & [] & _)].
  - destruct (parseTransferLog l false) as [e'|] eqn:E; simpl; rewrite IH.
    + split.
      * intros [<-|(log & I & P)]; eauto.
      * intros (log & [<-|I] & P); [left; congruence | right; eauto].
    + split.
      * intros (log & I & P); eauto.
      * intros (log & [<-|I] & P); [congruence | eauto].
Qed.

Lemma queryFilter_In chain addr f t log :
  In log (queryFilter chain addr TransferSingle f t) <->
  In log chain /\ selects addr f t log.
Proof.
  unfold queryFilter, selects. rewrite filter_In, !andb_true_iff.
  rewrite String.eqb_eq, Z.leb_le, Z.leb_le.
  destruct (log_event log); simpl; intuition congruence.
Qed.

End MonitorFacts.

(** C2, as the code has it.  [getHistoricalTransfers] throws
    "Not connected" exactly when no HTTP provider has been created, that
    is, when [connect()] has not been called yet on this monitor,
    whatever else has happened to it; once [connect()] has been called,
    also after a [disconnect()], the guard lets the query through and a
    node that answers gives a result. *)
Theorem getHistoricalTransfers_not_connected_iff_never_connected :
  forall (c : ChainMonitorConfig) (trace : list Action)
         (chain : option (list Log)) (fromBlock toBlock : Z),
    let m := run trace (constructor c) in
    (getHistoricalTransfers chain fromBlock toBlock m = Throw "Not connected"
     <-> existsb isConnectCall trace = false)
    /\ (forall logs, existsb isConnectCall trace = true ->
          threw (getHistoricalTransfers (Some logs) fromBlock toBlock m)
          = false).
Proof.
  intros c trace chain f t m.
  pose proof (httpProvider_run trace (constructor c) (sound_constructor c)
                               eq_refl) as H.
  fold m in H. unfold getHistoricalTransfers.
  split.
  - rewrite <- H. destruct (httpProvider m).
    + destruct chain; split; discriminate.
    + split; reflexivity.
  - intros logs E. destruct (httpProvider m) eqn:Hp; auto.
    destruct H as [H _]. rewrite (H eq_refl) in E. discriminate E.
Qed.

(** C2 as stated does not hold: after [connect()] and [disconnect()]
    the monitor reports that it is not connected and
    [getHistoricalTransfers] returns a result. *)
Lemma getHistoricalTransfers_answers_after_disconnect :
  let m := run [call_connect 0 (Some 100) ws_open; call_disconnect]
               (constructor defaults) in
  isConnected m = false
  /\ getMode m = disconnected
  /\ threw (getHistoricalTransfers (Some sampleChain) 100 110 m) = false
  /\ ~ (threw (getHistoricalTransfers (Some sampleChain) 100 110 m) = true
        <-> isConnected m = false).
Proof.
  cbv zeta. repeat split.
  intros [_ H]. specialize (H eq_refl). discriminate H.
Qed.

(** C3.  On a monitor that is not running and has push mode enabled, a
    [connect()] whose push connection fails (the height of the chain
    having been read) does not throw; afterwards [getMode()] is
    [polling] and [isConnected()] is [true]. *)
Theorem connect_falls_back_to_polling :
  forall (c : ChainMonitorConfig) (trace : list Action)
         (now height : Z) (ws : WsOutcome),
    let m := run trace (constructor c) in
    isRunning m = false ->
    wsEnabled (config m) = true ->
    ws <> ws_open ->
    let o := connect now (Some height) ws m in
    completion o = Ok tt
    /\ getMode (after o) = polling
    /\ isConnected (after o) = true.
Proof.
  intros c trace now h ws m R W F o.
  destruct (sound_run trace _ (sound_constructor c)) as [T _].
  fold m in T. specialize (T R).
  subst o. unfold connect, getMode, isConnected. rewrite R. simpl. rewrite W.
  unfold connectOrPoll, startPolling.
  destruct ws; try congruence; simpl; rewrite T; simpl; auto.
Qed.

Lemma connect_falls_back_to_polling_witness :
  let o := connect 0 (Some 100) ws_rejected (constructor defaults) in
  completion o = Ok tt /\ getMode (after o) = polling
  /\ isConnected (after o) = true.
Proof.
  apply (connect_falls_back_to_polling defaults [] 0 100 ws_rejected);
    [reflexivity | reflexivity | discriminate].
Defined.

(** C4.  With three reconnect attempts configured, on the monitor
    that [lateCloses] leads to (running, in push mode, auto-reconnect
    on, all three attempts used, the polling timer of the earlier
    fallback still set), the next [close] of the push socket finds the
    budget exhausted and takes the branch of [handleDisconnect] that
    falls back to polling; [startPolling] returns at once because a
    timer is set, so the monitor is left reporting mode [websocket],
    not connected, with no push socket and the polling timer running:
    it has not moved to polling mode.  It has not moved to
    [disconnected] either: no step of the monitor other than
    [disconnect()] enters that mode. *)
Theorem exhausted_reconnects_leave_mode_websocket_while_polling :
  let m := run lateCloses (constructor threeAttempts) in
  let m' := fst (handleDisconnect m) in
  (isRunning m = true
   /\ getMode m = websocket
   /\ autoReconnect (config m) = true
   /\ maxReconnectAttempts (config m) = 3
   /\ reconnectAttempts m = 3
   /\ pollingTimer m = Some obj)
  /\ getMode m' = websocket
  /\ getMode m' <> polling
  /\ getMode m' <> disconnected
  /\ mode (getStats m') = websocket
  /\ isConnected m' = false
  /\ wsProvider m' = None
  /\ pollingTimer m' = Some obj
  /\ snd (handleDisconnect m) = []
  /\ (forall a m0, getMode (step a m0) = disconnected ->
                   a = call_disconnect \/ getMode m0 = disconnected).
Proof.
  cbv zeta.
  split; [repeat split|].
  repeat (split; [first [reflexivity | discriminate]|]).
  apply step_mode.
Qed.

(** Where no polling timer is set, the same [close] does move the
    monitor to polling mode. *)
Example exhausted_reconnects_start_polling_in_push_only :
  let m := run lateClosesPushOnly (constructor threeAttempts) in
  let m' := fst (handleDisconnect m) in
  (isRunning m = true /\ getMode m = websocket
   /\ reconnectAttempts m = 3 /\ pollingTimer m = None)
  /\ getMode m' = polling
  /\ isConnected m' = true
  /\ snd (handleDisconnect m) = [emit_connected polling; setInterval_poll].
Proof.
  cbv zeta. repeat split; reflexivity.
Qed.

(** C5.  With a threshold and an amount that are integer numerals,
    [processEvent] returns normally and emits nothing exactly when the
    threshold is positive and the amount, as an exact integer, is below
    it; otherwise it emits the event.  With the threshold "1000" an
    amount of "500" is dropped and an amount of "1500" is emitted. *)
Theorem minimum_value_filter_is_exact :
  forall (now : Z) (event : TransferEvent) (m : Monitor) (minValue a : Z),
    BigNumber_from (minTransferValue (config m)) = Some minValue ->
    BigNumber_from (amount event) = Some a ->
    let o := processEvent now event m in
    completion o = Ok tt
    /\ (effects o = [] <-> 0 < minValue /\ a < minValue)
    /\ (effects o = [emit_transfer event] <-> ~ (0 < minValue /\ a < minValue))
    /\ (effects o = [] -> after o = m)
    /\ (minTransferValue (config m) = "1000"%string ->
        (amount event = "500"%string -> effects o = [])
        /\ (amount event = "1500"%string -> effects o = [emit_transfer event])).
Proof.
  intros now ev m t a T A o.
  assert (K : minTransferValue (config m) = "1000"%string ->
              t = 1000
              /\ (amount ev = "500"%string -> a = 500)
              /\ (amount ev = "1500"%string -> a = 1500)).
  { intros E. rewrite E in T. injection T as <-.
    repeat split; intros E'; rewrite E' in A; now injection A as <-. }
  subst o. unfold processEvent. rewrite T.
  destruct (0 <? t) eqn:P; [rewrite A; destruct (a <? t) eqn:L|]; simpl;
    try apply Z.ltb_lt in P; try apply Z.ltb_ge in P;
    try apply Z.ltb_lt in L; try apply Z.ltb_ge in L;
    (split; [reflexivity|]);
    (split; [split; [try discriminate; auto | try lia; auto]|]);
    (split; [split; [try discriminate; try lia; auto
                    | try reflexivity; intros; exfalso; lia]|]);
    (split; [try discriminate; auto|]);
    intros E; destruct (K E) as (-> & K5 & K15);
    (split; intros E'; [try reflexivity; specialize (K5 E')
                       | try reflexivity; specialize (K15 E')]); lia.
Qed.

Lemma minimum_value_filter_is_exact_witness :
  let o := processEvent 0 (transfer "500") filtering in
  completion o = Ok tt
  /\ (effects o = [] <-> 0 < 1000 /\ 500 < 1000)
  /\ (effects o = [emit_transfer (transfer "500")]
      <-> ~ (0 < 1000 /\ 500 < 1000))
  /\ (effects o = [] -> after o = filtering)
  /\ (minTransferValue (config filtering) = "1000"%string ->
      (amount (transfer "500") = "500"%string -> effects o = [])
      /\ (amount (transfer "500") = "1500"%string ->
          effects o = [emit_transfer (transfer "500")])).
Proof.
  apply (minimum_value_filter_is_exact 0 (transfer "500") filtering 1000 500);
    reflexivity.
Defined.

Example filter_1000_drops_500_passes_1500 :
  effects (processEvent 0 (transfer "500") filtering) = []
  /\ effects (processEvent 0 (transfer "1500") filtering)
     = [emit_transfer (transfer "1500")]
  /\ effects (handleTransferSingle 0 "0x03" "0x01" "0x02" 7 500 "0xabc" 105
                                   filtering) = []
  /\ effects (handleTransferSingle 0 "0x03" "0x01" "0x02" 7 1500 "0xabc" 105
                                   filtering)
     = [emit_transfer (transfer "1500")].
Proof. repeat split; reflexivity. Qed.

(** C9.  [disconnect()] clears the polling timer (with [clearInterval]
    if there was one), destroys and drops the push provider, drops the
    contracts, and leaves the monitor not running, not connected, in
    mode [disconnected]; a second [disconnect()] leaves that state as it
    is. *)
Theorem disconnect_is_idempotent :
  forall m : Monitor,
    let m1 := fst (disconnect m) in
    fst (disconnect m1) = m1
    /\ isRunning m1 = false
    /\ pollingTimer m1 = None
    /\ wsProvider m1 = None
    /\ ctfContract m1 = None /\ negRiskContract m1 = None
    /\ getMode m1 = disconnected
    /\ mode (getStats m1) = disconnected
    /\ isConnected m1 = false
    /\ (pollingTimer m <> None -> In clearInterval_poll (snd (disconnect m)))
    /\ (wsProvider m <> None -> In destroy_ws (snd (disconnect m))).
Proof.
  intros m. cbv zeta. unfold disconnect; simpl.
  repeat split.
  - destruct (pollingTimer m); [left; reflexivity | congruence].
  - destruct (wsProvider m); [|congruence]. intros _.
    apply in_or_app. right. left. reflexivity.
Qed.

(** C6.  On a connected monitor, with a node that answers,
    [getHistoricalTransfers(fromBlock, toBlock)] returns events whose
    block lies in the closed range, in ascending order of block, and they
    are the transfers that parse among the TransferSingle logs of the
    two exchange contracts in that range. *)
Theorem historical_transfers_in_range_and_sorted :
  forall (c : ChainMonitorConfig) (trace : list Action) (logs : list Log)
         (fromBlock toBlock : Z),
    let m := run trace (constructor c) in
    isConnected m = true ->
    exists events,
      getHistoricalTransfers (Some logs) fromBlock toBlock m = Ok events
      /\ Forall (fun e => fromBlock <= blockNumber e <= toBlock) events
      /\ StronglySorted (fun a b => blockNumber a <= blockNumber b) events
      /\ (forall e, In e events <->
            exists log, In log logs
              /\ (selects CTF_EXCHANGE fromBlock toBlock log
                  \/ selects NEG_RISK_CTF_EXCHANGE fromBlock toBlock log)
              /\ parseTransferLog log false = Some e).
Proof.
  intros c trace logs f t m C.
  destruct (sound_run trace _ (sound_constructor c)) as [_ P]. fold m in P.
  unfold getHistoricalTransfers.
  destruct (httpProvider m) eqn:Hp;
    [|destruct (P eq_refl) as [_ X]; unfold isConnected in C; congruence].
  eexists. split; [reflexivity|].
  assert (I : forall e,
             In e (sortByBlock
                     (parseAll (queryFilter logs CTF_EXCHANGE TransferSingle f t)
                      ++ parseAll (queryFilter logs NEG_RISK_CTF_EXCHANGE
                                               TransferSingle f t)))
             <-> exists log, In log logs
                  /\ (selects CTF_EXCHANGE f t log
                      \/ selects NEG_RISK_CTF_EXCHANGE f t log)
                  /\ parseTransferLog log false = Some e).
  { intros e. split.
    - intros H. apply (Permutation_in _ (sortByBlock_perm _)) in H.
      apply in_app_or in H as [H|H]; apply parseAll_In in H as (log & H & Q);
        apply queryFilter_In in H as [H S]; eauto 6.
    - intros (log & H & [S|S] & Q);
        apply (Permutation_in _ (Permutation_sym (sortByBlock_perm _)));
        apply in_or_app; [left|right]; apply parseAll_In; exists log;
        (split; [apply queryFilter_In; auto | auto]). }
  split; [|split; [apply sortByBlock_sorted | exact I]].
  apply Forall_forall. intros e H. apply I in H as (log & _ & S & Q).
  apply parseTransferLog_block in Q. rewrite Q.
  destruct S as [(_ & _ & S)|(_ & _ & S)]; exact S.
Qed.

Lemma historical_transfers_in_range_and_sorted_witness :
  exists events,
    getHistoricalTransfers (Some sampleChain) 100 110
      (run [call_connect 0 (Some 120) ws_rejected] (constructor defaults))
    = Ok events
    /\ Forall (fun e => 100 <= blockNumber e <= 110) events
    /\ StronglySorted (fun a b => blockNumber a <= blockNumber b) events
    /\ (forall e, In e events <->
          exists log, In log sampleChain
            /\ (selects CTF_EXCHANGE 100 110 log
                \/ selects NEG_RISK_CTF_EXCHANGE 100 110 log)
            /\ parseTransferLog log false = Some e).
Proof.
  apply (historical_transfers_in_range_and_sorted
           defaults [call_connect 0 (Some 120) ws_rejected] sampleChain
           100 110).
  reflexivity.
Defined.

(** The sample chain, queried: blocks 100, 101, 108 and 110 of the two
    exchanges, in that order. *)
Example getHistoricalTransfers_sample :
  option_map (map (fun e => (blockNumber e, amount e)))
    (match getHistoricalTransfers (Some sampleChain) 100 110
             (run [call_connect 0 (Some 120) ws_rejected]
                  (constructor defaults)) with
     | Ok events => Some events
     | Throw _ => None
     end)
  = Some [(100, "5"%string); (101, "3"%string); (108, "2"%string);
          (110, "7"%string)].
Proof. reflexivity. Qed.

(** The comparison is exact where a double is not: 2^53 is below
    2^53 + 1. *)
Example filter_compares_exactly :
  effects
    (processEvent 0 (transfer "9007199254740992")
       (constructor (configured (Some "9007199254740993"%string) None)))
  = [].
Proof. reflexivity. Qed.

(** With three reconnects allowed, the first reconnect that fails
    already starts polling. *)
Example failed_reconnect_starts_polling :
  let m := run [call_connect 0 (Some 100) ws_open; on_close;
                on_reconnectTimer ws_rejected]
               (constructor (configured None (Some 3))) in
  getMode m = polling /\ isConnected m = true /\ reconnectAttempts m = 1.
Proof. repeat split. Qed.

(** ** The realtime service *)

Import RealtimeService.

Section RealtimeFacts.

Lemma includes_In l x : includes l x = true <-> In x l.
Proof.
  unfold includes. rewrite existsb_exists. split.
  - intros (y & I & E). apply String.eqb_eq in E. now subst.
  - intros I. exists x. split; auto. apply String.eqb_refl.
Qed.

Lemma listener_id ev r :
  subscriptionId (fst (listener ev r)) = subscriptionId r.
Proof.
  destruct ev; simpl; auto. unfold priceHandler.
  destruct (includes _ _); auto. destruct (pairing r); auto.
Qed.

Ltac cases :=
  repeat (simpl in *;
          match goal with
          | H : In _ (_ ++ _) |- _ => apply in_app_or in H as [H|H]
          | H : False |- _ => destruct H
          | H : _ \/ _ |- _ => destruct H as [H|H]
          | H : _ = ?c |- _ => is_var c; subst c
          | H : context [if ?b then _ else _] |- _ => destruct b eqn:?
          | H : context [match ?x with Some _ => _ | None => _ end] |- _ =>
              destruct x eqn:?
          end);
  auto.

Lemma listener_callee ev r call :
  In call (snd (listener ev r)) -> callee call = subscriptionId r.
Proof.
  destruct ev; simpl;
    unfold priceHandler, bookHandler, tradeHandler, errorHandler,
           checkPairUpdate, optionally; intros H; cases.
Qed.

(** A frame about an asset outside the subscription passes its
    listeners by. *)
Lemma listener_filtered ev r c :
  frameAsset ev = Some c -> ~ In c (assetIds r) -> listener ev r = (r, []).
Proof.
  intros F N. rewrite <- includes_In in N. apply not_true_is_false in N.
  destruct ev; simpl in *; try discriminate; injection F as <-;
    unfold priceHandler, bookHandler, tradeHandler; now rewrite N.
Qed.

Lemma emitAll_calls ev rs call :
  In call (snd (emitAll ev rs)) <->
  exists r, In r rs /\ In call (snd (listener ev r)).
Proof.
  induction rs as [|r rs IH]; simpl.
  - split; [tauto | intros (? & [] & _)].
  - destruct (listener ev r) as [r' cs] eqn:L.
    destruct (emitAll ev rs) as [rs' cs'] eqn:E. simpl in *.
    rewrite in_app_iff, IH. split.
    + intros [H|(x & I & H)]; [exists r; rewrite L; auto | eauto].
    + intros (x & [<-|I] & H); [rewrite L in H; auto | eauto].
Qed.

Lemma emitAll_ids ev rs :
  map subscriptionId (fst (emitAll ev rs)) = map subscriptionId rs.
Proof.
  induction rs as [|r rs IH]; simpl; auto.
  pose proof (listener_id ev r) as I.
  destruct (listener ev r) as [r' cs].
  destruct (emitAll ev rs) as [rs' cs']. simpl in *. congruence.
Qed.

Lemma NoDup_map_filter {A B} (f : A -> B) (p : A -> bool) l :
  NoDup (map f l) -> NoDup (map f (filter p l)).
Proof.
  induction l as [|x l IH]; simpl; auto.
  intros N. inversion N as [|? ? X N']; subst.
  destruct (p x); simpl; auto. constructor; auto.
  intros I. apply X. apply in_map_iff in I as (y & E & I).
  apply filter_In in I as [I _]. apply in_map_iff. eauto.
Qed.

Lemma wellNumbered_step a s : wellNumbered s -> wellNumbered (step a s).
Proof.
  unfold wellNumbered. intros [N F].
  assert (S : forall p ids h,
             NoDup (map subscriptionId
                      (attached (fst (subscribeWith p ids h s))))
             /\ Forall (fun n => (n <= subscriptionIdCounter
                                         (fst (subscribeWith p ids h s)))%nat)
                       (map subscriptionId
                          (attached (fst (subscribeWith p ids h s))))).
  { intros p ids h. simpl. rewrite map_app. simpl. split.
    - apply NoDup_app; auto.
      + repeat constructor. intros [].
      + intros n I [<-|[]]. rewrite Forall_forall in F.
        specialize (F _ I). lia.
    - apply Forall_app. split.
      + eapply Forall_impl; [|exact F]. simpl. intros; lia.
      + repeat constructor. }
  destruct a as [ids h|yes no h|n|ev]; simpl; auto.
  - apply S.
  - apply S.
  - split; [now apply NoDup_map_filter|].
    rewrite Forall_forall in *. intros x I. apply F.
    apply in_map_iff in I as (y & E & I).
    apply filter_In in I as [I _]. apply in_map_iff. eauto.
  - unfold emit. pose proof (emitAll_ids ev (attached s)) as E.
    destruct (emitAll ev (attached s)) as [rs cs]. simpl in *.
    now rewrite E.
Qed.

Lemma wellNumbered_run trace : forall s,
  wellNumbered s -> wellNumbered (run trace s).
Proof.
  induction trace as [|a trace IH]; intros s W; simpl; auto.
  apply IH. now apply wellNumbered_step.
Qed.

Lemma NoDup_map_eq {A B} (f : A -> B) l x y :
  NoDup (map f l) -> In x l -> In y l -> f x = f y -> x = y.
Proof.
  induction l as [|z l IH]; simpl; [tauto|].
  intros N. inversion N as [|? ? X N']; subst.
  intros [->|Ix] [->|Iy] E; auto.
  - exfalso. apply X. rewrite E. now apply in_map.
  - exfalso. apply X. rewrite <- E. now apply in_map.
Qed.

End RealtimeFacts.

(** C7.  In every state of the service, a price, book or last-trade
    frame about an asset that is not among the asset ids of an attached
    subscription makes no call of that subscription's callbacks, while
    an error event calls the [onError] of every attached subscription
    that has one; [subscribeMarkets] attaches a subscription with the
    asset ids and handlers it is given. *)
Theorem frames_are_filtered_errors_are_broadcast :
  forall (trace : list Action) (ev : WsEvent),
    let s := run trace constructor in
    (forall r c,
        In r (attached s) ->
        frameAsset ev = Some c -> ~ In c (assetIds r) ->
        forall call, In call (snd (emit ev s)) ->
                     callee call <> subscriptionId r)
    /\ (forall r msg,
           In r (attached s) -> onError (handlers r) = true ->
           In (call_onError (subscriptionId r) msg) (snd (emit (error msg) s)))
    /\ (forall assetIds' h,
           exists r,
             attached (fst (subscribeMarkets assetIds' h s))
             = attached s ++ [r]
             /\ subscriptionId r = id (snd (subscribeMarkets assetIds' h s))
             /\ assetIds r = assetIds' /\ handlers r = h).
Proof.
  intros trace ev s.
  assert (W : wellNumbered s).
  { apply wellNumbered_run. split; constructor. }
  split; [|split].
  - intros r c I F N call H E.
    unfold emit in H.
    destruct (emitAll ev (attached s)) as [rs cs] eqn:A. simpl in H.
    assert (H' : In call (snd (emitAll ev (attached s)))) by now rewrite A.
    apply emitAll_calls in H' as (r' & I' & H').
    pose proof (listener_callee _ _ _ H') as C.
    assert (r' = r)
      by (apply (NoDup_map_eq subscriptionId (attached s)); auto;
          [apply W | congruence]).
    subst r'. rewrite (listener_filtered ev r c F N) in H'. exact H'.
  - intros r msg I O. unfold emit.
    destruct (emitAll (error msg) (attached s)) as [rs cs] eqn:A. simpl.
    assert (H : In (call_onError (subscriptionId r) msg)
                   (snd (emitAll (error msg) (attached s)))).
    { apply emitAll_calls. exists r. split; auto. simpl.
      unfold errorHandler. rewrite O. now left. }
    now rewrite A in H.
  - intros ids h. eexists. simpl. repeat split.
Qed.

Section PairingFacts.

Lemma latest_app w a b s : latest w (a ++ b) s = latest w b (latest w a s).
Proof.
  revert s. induction a as [|ev a IH]; intros s; simpl; auto.
  destruct ev; auto.
Qed.

Lemma latest_In w evs : forall s y,
  latest w evs s = Some y ->
  (In (priceUpdate y) evs /\ w y = true) \/ s = Some y.
Proof.
  induction evs as [|ev evs IH]; intros s y; simpl; auto.
  destruct ev as [u| | |]; intros H; apply IH in H as [[I W]|H]; auto.
  destruct (w u) eqn:E; auto. injection H as <-. auto.
Qed.

Lemma pairing_state evs : forall r p,
  pairing r = Some p ->
  assetIds r = [yesTokenId p; noTokenId p] ->
  fst (listenAll evs r) =
  {| subscriptionId := subscriptionId r;
     assetIds := assetIds r;
     handlers := handlers r;
     pairing :=
       Some {| yesTokenId := yesTokenId p;
               noTokenId := noTokenId p;
               lastYesUpdate :=
                 latest (forYes (yesTokenId p)) evs (lastYesUpdate p);
               lastNoUpdate :=
                 latest (forNo (yesTokenId p) (noTokenId p)) evs
                        (lastNoUpdate p) |} |}.
Proof.
  induction evs as [|ev evs IH]; intros r p P A.
  - simpl. destruct r, p; simpl in *. congruence.
  - cbn [listenAll].
    assert (S : forall r',
               r' = fst (listener ev r) ->
               fst (let (r', cs) := listener ev r in
                    let (r'', cs') := listenAll evs r' in (r'', cs ++ cs'))
               = fst (listenAll evs r')).
    { intros r' ->. destruct (listener ev r) as [x cs]. simpl.
      now destruct (listenAll evs x). }
    rewrite (S _ eq_refl). clear S.
    destruct ev as [u| | |];
      try (simpl; rewrite (IH r p P A); reflexivity).
    simpl. unfold priceHandler. rewrite P.
    assert (Inc : includes (assetIds r) (assetId u)
                  = String.eqb (assetId u) (yesTokenId p)
                    || String.eqb (assetId u) (noTokenId p)).
    { rewrite A. unfold includes. simpl. now rewrite orb_false_r. }
    rewrite Inc. unfold forYes, forNo, remember.
    destruct (String.eqb (assetId u) (yesTokenId p)) eqn:Y; simpl.
    + now rewrite (IH {| subscriptionId := subscriptionId r;
                         assetIds := assetIds r; handlers := handlers r;
                         pairing := Some _ |}
                      {| yesTokenId := yesTokenId p;
                         noTokenId := noTokenId p;
                         lastYesUpdate := Some u;
                         lastNoUpdate := lastNoUpdate p |} eq_refl A).
    + destruct (String.eqb (assetId u) (noTokenId p)) eqn:N; simpl.
      * now rewrite (IH {| subscriptionId := subscriptionId r;
                           assetIds := assetIds r; handlers := handlers r;
                           pairing := Some _ |}
                        {| yesTokenId := yesTokenId p;
                           noTokenId := noTokenId p;
                           lastYesUpdate := lastYesUpdate p;
                           lastNoUpdate := Some u |} eq_refl A).
      * now rewrite (IH r p P A).
Qed.

Lemma pair_call ev r n y no' spread :
  In (call_onPairUpdate n y no' spread) (snd (listener ev r)) ->
  exists u p,
    ev = priceUpdate u /\ pairing r = Some p
    /\ lastYesUpdate (remember u p) = Some y
    /\ lastNoUpdate (remember u p) = Some no'
    /\ spread = (price y + price no')%Q.
Proof.
  destruct ev as [u|b|t|msg]; simpl;
    unfold priceHandler, bookHandler, tradeHandler, errorHandler,
           checkPairUpdate, optionally; intros H.
  - destruct (includes _ _); simpl in H; [|contradiction].
    destruct (pairing r) as [p|]; simpl in H.
    + apply in_app_or in H as [H|H].
      * destruct (onPriceUpdate _); simpl in H;
          [destruct H as [H|[]]; discriminate H | contradiction].
      * destruct (lastYesUpdate (remember u p)) as [y0|] eqn:Y;
          [|contradiction].
        destruct (lastNoUpdate (remember u p)) as [n0|] eqn:N;
          [|contradiction].
        destruct (onPairUpdate _); simpl in H; [|contradiction].
        destruct H as [H|[]]. injection H as <- <- <- <-.
        exists u, p. auto.
    + destruct (onPriceUpdate _); simpl in H;
        [destruct H as [H|[]]; discriminate H | contradiction].
  - destruct (includes _ _); simpl in H; [|contradiction].
    destruct (onBookUpdate _); simpl in H;
      [destruct H as [H|[]]; discriminate H | contradiction].
  - destruct (includes _ _); simpl in H; [|contradiction].
    destruct (onLastTrade _); simpl in H;
      [destruct H as [H|[]]; discriminate H | contradiction].
  - destruct (onError _); simpl in H;
      [destruct H as [H|[]]; discriminate H | contradiction].
Qed.

End PairingFacts.

(** C8.  The subscription [subscribeMarket] attaches calls
    [onPairUpdate] only when the price updates it has seen so far, the
    present one included, contain one for the YES token and one for the
    NO token; the update it passes carries the latest of each and, as
    [spread], the sum of their two prices.  When the present update is
    for one of the two tokens, both sides have a latest update and the
    caller gave an [onPairUpdate], the call is made. *)
Theorem pair_update_needs_both_sides_and_sums_latest :
  forall (s : Service) (yes no : string) (h : MarketSubscriptionHandlers)
         (pre : list WsEvent) (ev : WsEvent),
  exists r0,
    attached (fst (subscribeMarket yes no h s)) = attached s ++ [r0]
    /\ subscriptionId r0 = id (snd (subscribeMarket yes no h s))
    /\ let r := fst (listenAll pre r0) in
       let history := pre ++ [ev] in
       (forall n y no' spread,
           In (call_onPairUpdate n y no' spread) (snd (listener ev r)) ->
           latest (forYes yes) history None = Some y
           /\ latest (forNo yes no) history None = Some no'
           /\ In (priceUpdate y) history /\ assetId y = yes
           /\ In (priceUpdate no') history /\ assetId no' = no
           /\ spread = (price y + price no')%Q)
       /\ (forall u y no',
              ev = priceUpdate u -> In (assetId u) [yes; no] ->
              onPairUpdate h = true ->
              latest (forYes yes) history None = Some y ->
              latest (forNo yes no) history None = Some no' ->
              In (call_onPairUpdate (subscriptionId r0) y no'
                                    (price y + price no')%Q)
                 (snd (listener ev r))).
Proof.
  intros s yes no h pre ev.
  set (p0 := {| yesTokenId := yes; noTokenId := no;
                lastYesUpdate := None; lastNoUpdate := None |}).
  set (r0 := {| subscriptionId := S (subscriptionIdCounter s);
                assetIds := [yes; no]; handlers := h; pairing := Some p0 |}).
  exists r0. split; [reflexivity|].
  split; [reflexivity|]. cbv zeta.
  rewrite (pairing_state pre r0 p0 eq_refl eq_refl). simpl.
  rewrite !latest_app.
  set (ly := latest (forYes yes) pre None).
  set (ln := latest (forNo yes no) pre None).
  assert (Hy : forall y, latest (forYes yes) (pre ++ [ev]) None = Some y ->
                         In (priceUpdate y) (pre ++ [ev]) /\ assetId y = yes).
  { intros y H. apply latest_In in H as [[I W]|H]; [|discriminate].
    split; auto. now apply String.eqb_eq. }
  assert (Hn : forall n, latest (forNo yes no) (pre ++ [ev]) None = Some n ->
                         In (priceUpdate n) (pre ++ [ev]) /\ assetId n = no).
  { intros n H. apply latest_In in H as [[I W]|H]; [|discriminate].
    split; auto. unfold forNo in W. apply andb_true_iff in W as [_ W].
    now apply String.eqb_eq. }
  rewrite !latest_app in Hy, Hn. fold ly in Hy. fold ln in Hn.
  split.
  - intros n y no' sp H.
    apply pair_call in H as (u & p & -> & P & Y & N & ->).
    simpl in P. injection P as <-.
    unfold remember in Y, N. simpl in Y, N, Hy, Hn |- *.
    unfold forYes, forNo in *. simpl in *.
    specialize (Hy y). specialize (Hn no').
    destruct (String.eqb (assetId u) yes); simpl in *.
    + rewrite Y, N in *. destruct (Hy eq_refl), (Hn eq_refl). auto 10.
    + destruct (String.eqb (assetId u) no); simpl in *;
        rewrite Y, N in *; destruct (Hy eq_refl), (Hn eq_refl); auto 10.
  - intros u y no' -> I O Y N.
    assert (Inc : includes [yes; no] (assetId u) = true)
      by (apply includes_In; exact I).
    cbn [listener]. unfold priceHandler.
    cbn [assetIds pairing handlers subscriptionId]. rewrite Inc.
    cbn [snd]. apply in_or_app. right.
    unfold checkPairUpdate, remember, optionally. simpl in Y, N |- *.
    unfold forYes, forNo in Y, N.
    destruct (String.eqb (assetId u) yes); simpl in *.
    + rewrite N, O. injection Y as <-. now left.
    + destruct (String.eqb (assetId u) no); simpl in *.
      * rewrite Y, O. injection N as <-. now left.
      * rewrite Y, N, O. now left.
Qed.

(** A subscription over "a" and "b" and a pair over "yes" and "no": a
    price for "c" calls nobody, a price for "a" calls the first, an
    error calls both, and the pair update comes with the second side. *)
Example realtime_sample :
  let s := run [call_subscribeMarkets ["a"; "b"]%string allHandlers;
                call_subscribeMarket "yes" "no" allHandlers] constructor in
  snd (emit (priceOf "c" (1 # 2)) s) = []
  /\ snd (emit (priceOf "a" (1 # 2)) s)
     = [call_onPriceUpdate 1 {| assetId := "a"; price := 1 # 2 |}]
  /\ snd (emit (error "boom") s)
     = [call_onError 1 "boom"; call_onError 2 "boom"]
  /\ snd (emit (priceOf "yes" (3 # 5)) s)
     = [call_onPriceUpdate 2 {| assetId := "yes"; price := 3 # 5 |}]
  /\ snd (emit (priceOf "no" (9 # 20))
               (fst (emit (priceOf "yes" (3 # 5)) s)))
     = [call_onPriceUpdate 2 {| assetId := "no"; price := 9 # 20 |};
        call_onPairUpdate 2 {| assetId := "yes"; price := 3 # 5 |}
                          {| assetId := "no"; price := 9 # 20 |}
                          ((3 # 5) + (9 # 20))%Q].
Proof. repeat split. Qed.

(** ** The smart score *)

Import WalletService.
Open Scope Q_scope.

Section ScoreFacts.

Lemma Math_min_spec a b : Math_min a b <= a /\ Math_min a b <= b
                          /\ (Math_min a b == a \/ Math_min a b == b).
Proof.
  unfold Math_min. destruct (Qle_bool a b) eqn:E.
  - apply Qle_bool_iff in E. repeat split; lra.
  - assert (~ a <= b) by (rewrite <- Qle_bool_iff; congruence).
    repeat split; lra.
Qed.

Lemma Math_max_spec a b : a <= Math_max a b /\ b <= Math_max a b
                          /\ (Math_max a b == a \/ Math_max a b == b).
Proof.
  unfold Math_max. destruct (Qle_bool a b) eqn:E.
  - apply Qle_bool_iff in E. repeat split; lra.
  - assert (~ a <= b) by (rewrite <- Qle_bool_iff; congruence).
    repeat split; lra.
Qed.

Lemma sumOf_from {A} (f : A -> Q) l : forall acc,
  fold_left (fun sum x => sum + f x) l acc == acc + sumOf f l.
Proof.
  unfold sumOf. induction l as [|x l IH]; intros acc; simpl.
  - lra.
  - rewrite IH, (IH (0 + f x)). lra.
Qed.

Lemma sumOf_nonneg {A} (f : A -> Q) l :
  (forall x, 0 <= f x) -> 0 <= sumOf f l.
Proof.
  intros F. induction l as [|x l IH].
  - unfold sumOf; simpl; lra.
  - unfold sumOf. simpl. rewrite sumOf_from. specialize (F x). lra.
Qed.

Lemma len_nonneg {A} (l : list A) : 0 <= len l.
Proof.
  unfold len. change 0 with (inject_Z 0). rewrite <- Zle_Qle. lia.
Qed.

Lemma len_pos {A} (x : A) l : 0 < len (x :: l).
Proof.
  unfold len. change 0 with (inject_Z 0). rewrite <- Zlt_Qlt. simpl. lia.
Qed.

Lemma len_filter {A} (p : A -> bool) l : len (filter p l) <= len l.
Proof.
  unfold len. rewrite <- Zle_Qle. apply inj_le, filter_length_le.
Qed.

Lemma square_nonneg x : 0 <= x ^ 2.
Proof. simpl. nra. Qed.

Lemma calculateVariance_nonneg values : 0 <= calculateVariance values.
Proof.
  unfold calculateVariance. destruct values as [|v l]; [lra|].
  apply Qle_shift_div_l; [apply len_pos|].
  rewrite Qmult_0_l. apply sumOf_nonneg. intros x. apply square_nonneg.
Qed.

Lemma pnlScore_range positions : 0 <= pnlScore positions <= 40.
Proof.
  unfold pnlScore.
  set (x := (avgPnL positions + 50) / 100 * 40).
  destruct (Math_max_spec 0 x) as (M1 & M2 & M3).
  destruct (Math_min_spec 40 (Math_max 0 x)) as (N1 & N2 & [N3|N3]); lra.
Qed.

Lemma winRate_range positions : 0 <= winRate positions <= 1.
Proof.
  unfold winRate. destruct positions as [|p l]; [lra|].
  set (w := filter _ _).
  pose proof (len_pos p l). pose proof (len_nonneg w).
  pose proof (len_filter (fun p => negb (Qle_bool (orZero (cashPnl p)) 0))
                         (p :: l)) as F. fold w in F.
  split.
  - apply Qle_shift_div_l; try assumption; lra.
  - apply Qle_shift_div_r; try assumption; lra.
Qed.

Lemma winRateScore_range positions : 0 <= winRateScore positions <= 30.
Proof.
  unfold winRateScore. pose proof (winRate_range positions). lra.
Qed.

Lemma consistencyScore_range positions :
  0 <= consistencyScore positions <= 20.
Proof.
  unfold consistencyScore.
  set (v := calculateVariance _).
  pose proof (calculateVariance_nonneg
                (map (fun p => orZero (percentPnl p)) positions)) as V.
  fold v in V.
  destruct (Math_max_spec 0 (20 - v / 10)) as (M1 & M2 & [M3|M3]); try lra.
  assert (0 <= v / 10) by (apply Qle_shift_div_l; lra).
  lra.
Qed.

Lemma activityScore_range now activities :
  0 <= activityScore now activities <= 10.
Proof.
  unfold activityScore.
  set (r := filter _ _). pose proof (len_nonneg r) as R.
  destruct (Math_min_spec 10 (len r / 5 * 10)) as (N1 & N2 & [N3|N3]);
    try lra.
  assert (0 <= len r / 5) by (apply Qle_shift_div_l; lra).
  lra.
Qed.

End ScoreFacts.

(** C10.  Numbers taken as exact rationals, [calculateSmartScore] is an
    integer between 0 and 100, it is the [smartScore] of the profile
    [getWalletProfile] returns, and its four components lie in [0, 40],
    [0, 30], [0, 20] and [0, 10]. *)
Theorem smartScore_in_range :
  forall (now : Q) (address' : string) (positions : list Position)
         (activities : list Activity),
    (0 <= calculateSmartScore now positions activities <= 100)%Z
    /\ smartScore (getWalletProfile now address' positions activities)
       = calculateSmartScore now positions activities
    /\ 0 <= pnlScore positions <= 40
    /\ 0 <= winRateScore positions <= 30
    /\ 0 <= consistencyScore positions <= 20
    /\ 0 <= activityScore now activities <= 10.
Proof.
  intros now a ps acts.
  pose proof (pnlScore_range ps) as P.
  pose proof (winRateScore_range ps) as W.
  pose proof (consistencyScore_range ps) as C.
  pose proof (activityScore_range now acts) as A.
  repeat split; try tauto; unfold calculateSmartScore, Math_round.
  - change 0%Z with (Qfloor (0 + (1 # 2))). apply Qfloor_resp_le. lra.
  - change 100%Z with (Qfloor (100 + (1 # 2))). apply Qfloor_resp_le. lra.
Qed.

(** Two winning positions of +20% and +40% and one losing of -30%, six
    trades in the last week: 24 + 20 + 0 + 10. *)
Example calculateSmartScore_sample :
  calculateSmartScore 1000000000000
    [position 20 5; position 40 1; position (-30) (-2)]
    (repeat {| type := TRADE; timestamp := 999999999999 |} 6)
  = 54%Z.
Proof. reflexivity. Qed.

(** ** More about the chain monitor *)

Section MonitorMore.
Import ChainMonitorClient ChainMonitorSupport.
Local Open Scope Z_scope.

(** The pipeline writes the statistics and nothing else. *)
Lemma processEvent_frame now e m :
  exists f, after (processEvent now e m) = set_stats f m.
Proof.
  unfold processEvent.
  assert (I : exists f, m = set_stats f m)
    by (exists (fun s => s); destruct m; reflexivity).
  destruct (BigNumber_from (minTransferValue (config m))) as [t|]; auto.
  assert (P : exists f,
             set_stats (stats_currentBlock (blockNumber e))
               (set_stats (stats_observe now) m) = set_stats f m)
    by (eexists (fun s => _); reflexivity).
  destruct (0 <? t); auto.
  destruct (BigNumber_from (amount e)) as [a|]; auto.
  destruct (a <? t); auto.
Qed.




Lemma eventsObserved_processEvent now e m :
  eventsObserved (stats (after (processEvent now e m)))
  = eventsObserved (stats m)
    + Z.of_nat (List.length (transfersOf (effects (processEvent now e m)))).
Proof.
  unfold processEvent.
  destruct (BigNumber_from (minTransferValue (config m))) as [t|]; simpl;
    [|lia].
  destruct (0 <? t); simpl; [|lia].
  destruct (BigNumber_from (amount e)) as [a|]; simpl; [|lia].
  destruct (a <? t); simpl; lia.
Qed.

Lemma transfersOf_app a b : transfersOf (a ++ b) = transfersOf a ++ transfersOf b.
Proof.
  induction a as [|x a IH]; simpl; auto. destruct x; simpl; congruence.
Qed.

Lemma eventsObserved_processAll now es : forall m,
  eventsObserved (stats (after (processAll now es m)))
  = eventsObserved (stats m)
    + Z.of_nat (List.length (transfersOf (effects (processAll now es m)))).
Proof.
  induction es as [|e es IH]; intros m; simpl; [lia|].
  pose proof (eventsObserved_processEvent now e m) as E.
  destruct (completion (processEvent now e m)); auto.
  simpl. rewrite IH, E, transfersOf_app, length_app. lia.
Qed.

Lemma eventsObserved_step a m :
  eventsObserved (stats (step a m))
  = eventsObserved (stats m)
    + Z.of_nat (List.length (transfersOf (stepEffects a m))).
Proof.
  destruct a as [now h ws| | |ws|now h chain|now e]; simpl.
  - unfold connect. destruct (isRunning m); simpl; [lia|].
    destruct h as [b|]; simpl; [|lia].
    destruct (wsEnabled (config m)); destruct ws;
      unfold connectOrPoll, startPolling; simpl;
      destruct (pollingTimer m); simpl; lia.
  - unfold disconnect. simpl.
    destruct (pollingTimer m), (wsProvider m); simpl; lia.
  - unfold handleDisconnect. destruct (isRunning m); simpl; [|lia].
    destruct (wsProvider m); simpl;
      destruct (autoReconnect (config m)
                && (reconnectAttempts m <? maxReconnectAttempts (config m)));
      simpl; try lia;
      destruct (Mode_eqb (currentMode m) websocket); simpl; try lia;
      unfold startPolling; simpl; destruct (pollingTimer m); simpl; lia.
  - unfold reconnectTimer. destruct (isRunning m); simpl; [|lia].
    destruct ws; unfold connectOrPoll, startPolling; simpl;
      destruct (pollingTimer m); simpl; lia.
  - unfold pollNewBlocks.
    destruct (httpProvider m); simpl; [|lia].
    destruct (isRunning m); simpl; [|lia].
    destruct h as [b|]; simpl; [|lia].
    destruct (lastScannedBlock m <? b); simpl; [|lia].
    destruct (getHistoricalTransfers chain (lastScannedBlock m + 1) b m)
      as [es|]; simpl; [|lia].
    pose proof (eventsObserved_processAll now es m) as E.
    destruct (completion (processAll now es m)); simpl.
    + exact E.
    + rewrite transfersOf_app, length_app. simpl. lia.
  - apply eventsObserved_processEvent.
Qed.

(** X3.  [stats.eventsObserved] grows by one with every transfer the
    monitor emits and by nothing else: over any sequence of calls and
    callbacks it has grown by the number of transfers emitted. *)
Theorem eventsObserved_counts_the_transfers_emitted :
  forall (trace : list Action) (m : Monitor),
    eventsObserved (getStats (run trace m))
    = eventsObserved (getStats m)
      + Z.of_nat (List.length (transfersOf (runEffects trace m))).
Proof.
  induction trace as [|a trace IH]; intros m; simpl.
  - unfold getStats. lia.
  - unfold run in *. simpl. rewrite IH. unfold getStats.
    rewrite eventsObserved_step, transfersOf_app, length_app. lia.
Qed.

(** Every way a step can go, with the tests it makes decided. *)
Ltac step_cases m :=
  simpl in *;
  repeat (match goal with
    | |- context [isRunning m] => destruct (isRunning m) eqn:?
    | |- context [wsEnabled (config m)] => destruct (wsEnabled (config m)) eqn:?
    | |- context [autoReconnect (config m)] =>
        destruct (autoReconnect (config m)) eqn:?
    | |- context [reconnectAttempts m <? maxReconnectAttempts (config m)] =>
        destruct (reconnectAttempts m <? maxReconnectAttempts (config m)) eqn:?
    | |- context [Mode_eqb (currentMode m) websocket] =>
        destruct (Mode_eqb (currentMode m) websocket) eqn:?
    | |- context [pollingTimer m] => destruct (pollingTimer m) eqn:?
    | |- context [wsProvider m] => destruct (wsProvider m) eqn:?
    | |- context [connectWebSocket ?w _] => is_var w; destruct w
    | |- context [match ?h with Some _ => _ | None => _ end] =>
        is_var h; destruct h
    end; simpl in *).

Lemma agreeing_control m m' :
  control m' = control m -> agreeing m -> agreeing m'.
Proof.
  unfold control, agreeing. intros C.
  injection C as -> _ _ -> -> _ -> -> ->. tauto.
Qed.

Lemma agreeing_step a m : agreeing m -> agreeing (step a m).
Proof.
  intros A.
  destruct a as [now h ws| | |ws|now h chain|now e]; simpl;
    try (eapply agreeing_control; [|exact A];
         first [apply control_pollNewBlocks | apply control_processEvent]);
    revert A;
    unfold agreeing, connect, disconnect, handleDisconnect, reconnectTimer,
           connectOrPoll, startPolling;
    intros (M & C & R);
    step_cases m;
    repeat split; intros; try discriminate; try congruence; try lia;
    try (apply C; assumption).
Qed.

Lemma agreeing_run trace : forall m, agreeing m -> agreeing (run trace m).
Proof.
  induction trace as [|a trace IH]; intros m A; simpl; auto.
  apply IH. now apply agreeing_step.
Qed.

Lemma config_step a m : config (step a m) = config m.
Proof.
  destruct a as [now h ws| | |ws|now h chain|now e]; simpl;
    try (pose proof (control_pollNewBlocks now h chain m) as C;
         unfold control in C; now injection C);
    try (pose proof (control_processEvent now e m) as C;
         unfold control in C; now injection C);
    unfold connect, disconnect, handleDisconnect, reconnectTimer,
           connectOrPoll, startPolling;
    step_cases m; reflexivity.
Qed.

Lemma config_run trace : forall m, config (run trace m) = config m.
Proof.
  induction trace as [|a trace IH]; intros m; simpl; auto.
  unfold run in *. simpl. now rewrite IH, config_step.
Qed.


(** X2.  The reconnect counter stays between zero and the configured
    maximum (zero when the maximum is negative), and the configuration
    is never changed. *)
Theorem reconnectAttempts_stay_within_the_budget :
  forall (c : ChainMonitorConfig) (trace : list Action),
    let m := run trace (constructor c) in
    config m = config (constructor c)
    /\ 0 <= reconnectAttempts m
    /\ reconnectAttempts m <= Z.max 0 (maxReconnectAttempts (config m)).
Proof.
  intros c trace m.
  assert (A : agreeing m).
  { apply agreeing_run. unfold agreeing; simpl. repeat split; try discriminate.
    destruct (cfg_maxReconnectAttempts c); simpl; lia. }
  destruct A as (_ & _ & R). split; [apply config_run | lia].
Qed.


Lemma lastScannedBlock_set_stats f m :
  lastScannedBlock (set_stats f m) = lastScannedBlock m.
Proof. reflexivity. Qed.



Lemma transfersOf_emitted evs : transfersOf (map emit_transfer evs) = evs.
Proof. induction evs; simpl; congruence. Qed.

Lemma processAll_unfiltered now evs : forall m t,
  BigNumber_from (minTransferValue (config m)) = Some t -> t <= 0 ->
  completion (processAll now evs m) = Ok tt
  /\ effects (processAll now evs m) = map emit_transfer evs.
Proof.
  induction evs as [|e evs IH]; intros m t T L; simpl; auto.
  assert (P : processEvent now e m
              = returns (set_stats (stats_currentBlock (blockNumber e))
                           (set_stats (stats_observe now) m))
                        [emit_transfer e]).
  { unfold processEvent. rewrite T.
    destruct (0 <? t) eqn:Z0; auto. apply Z.ltb_lt in Z0. lia. }
  rewrite P. simpl.
  destruct (IH (set_stats (stats_currentBlock (blockNumber e))
                  (set_stats (stats_observe now) m)) t T L) as [C E].
  rewrite C, E. auto.
Qed.

(** X5.  With a minimum transfer value that is zero or negative (the
    default is "0"), a tick of a running monitor that finds the chain
    higher than its cursor emits every transfer that the historical
    query returns for the blocks from the cursor + 1 to the new height,
    in the order of the query, moves the cursor to the new height and
    records it as the current block. *)
Theorem poll_tick_emits_every_new_transfer :
  forall (now height : Z) (logs : list Log) (m : Monitor) (t : Z)
         (events : list TransferEvent),
    isRunning m = true ->
    BigNumber_from (minTransferValue (config m)) = Some t -> t <= 0 ->
    lastScannedBlock m < height ->
    getHistoricalTransfers (Some logs) (lastScannedBlock m + 1) height m
    = Ok events ->
    let m' := fst (pollNewBlocks now (Some height) (Some logs) m) in
    snd (pollNewBlocks now (Some height) (Some logs) m)
    = map emit_transfer events
    /\ lastScannedBlock m' = height
    /\ currentBlock (getStats m') = Some height
    /\ eventsObserved (getStats m')
       = eventsObserved (getStats m) + Z.of_nat (List.length events).
Proof.
  intros now h logs m t evs R T L H G. cbv zeta.
  assert (Hp : httpProvider m <> None).
  { unfold getHistoricalTransfers in G.
    destruct (httpProvider m); [discriminate | discriminate G]. }
  pose proof (eventsObserved_processAll now evs m) as O.
  destruct (processAll_unfiltered now evs m t T L) as [C E].
  unfold pollNewBlocks, getStats.
  destruct (httpProvider m); [|congruence].
  rewrite E, transfersOf_emitted in O.
  rewrite R. simpl. apply Z.ltb_lt in H. rewrite H, G, C. simpl.
  rewrite O, E. repeat split; auto.
Qed.

Lemma poll_tick_emits_every_new_transfer_witness :
  let m' := fst (pollNewBlocks 0 (Some 110) (Some sampleChain)
                               pollingMonitor) in
  snd (pollNewBlocks 0 (Some 110) (Some sampleChain) pollingMonitor)
  = map emit_transfer
      (sortByBlock
         (parseAll (queryFilter sampleChain CTF_EXCHANGE TransferSingle
                                (99 + 1) 110)
          ++ parseAll (queryFilter sampleChain NEG_RISK_CTF_EXCHANGE
                                   TransferSingle (99 + 1) 110)))
  /\ lastScannedBlock m' = 110
  /\ currentBlock (getStats m') = Some 110
  /\ eventsObserved (getStats m')
     = eventsObserved (getStats pollingMonitor)
       + Z.of_nat
           (List.length
              (sortByBlock
                 (parseAll (queryFilter sampleChain CTF_EXCHANGE
                                        TransferSingle (99 + 1) 110)
                  ++ parseAll (queryFilter sampleChain NEG_RISK_CTF_EXCHANGE
                                           TransferSingle (99 + 1) 110)))).
Proof.
  apply (poll_tick_emits_every_new_transfer 0 110 sampleChain pollingMonitor 0);
    [reflexivity | reflexivity | lia | simpl; lia | reflexivity].
Defined.

Lemma inBlock_insert (b : Z) e l :
  StronglySorted ascending l ->
  filter (fun x => blockNumber x =? b) (insertByBlock e l)
  = filter (fun x => blockNumber x =? b) l
    ++ (if blockNumber e =? b then [e] else []).
Proof.
  induction 1 as [|x l S IH F]; simpl.
  - now destruct (blockNumber e =? b).
  - destruct (blockNumber e <? blockNumber x) eqn:L; simpl.
    + apply Z.ltb_lt in L.
      destruct (blockNumber e =? b) eqn:E; [|now rewrite app_nil_r].
      apply Z.eqb_eq in E.
      assert (N : filter (fun y => blockNumber y =? b) (x :: l) = []).
      { clear IH. assert (A : Forall (fun y => blockNumber x <= blockNumber y)
                                     (x :: l))
          by (constructor; [lia | exact F]).
        induction A as [|y k Hy A IHA]; simpl; auto.
        destruct (blockNumber y =? b) eqn:Y; auto.
        apply Z.eqb_eq in Y. lia. }
      simpl in N. rewrite N. reflexivity.
    + rewrite IH. now destruct (blockNumber x =? b).
Qed.

Lemma inBlock_sort (b : Z) l : forall acc,
  StronglySorted ascending acc ->
  filter (fun x => blockNumber x =? b)
         (fold_left (fun acc e => insertByBlock e acc) l acc)
  = filter (fun x => blockNumber x =? b) acc
    ++ filter (fun x => blockNumber x =? b) l.
Proof.
  induction l as [|e l IH]; intros acc S; simpl.
  - now rewrite app_nil_r.
  - rewrite IH by now apply insertByBlock_sorted.
    rewrite inBlock_insert by assumption.
    rewrite <- app_assoc. now destruct (blockNumber e =? b).
Qed.

(** X10.  The sort of [getHistoricalTransfers] is stable: the
    transfers of one block come out as the queries returned them, those
    of the CTF exchange first, those of the NegRisk exchange after. *)
Theorem historical_transfers_keep_query_order_within_a_block :
  forall (logs : list Log) (fromBlock toBlock block : Z) (m : Monitor),
    match getHistoricalTransfers (Some logs) fromBlock toBlock m with
    | Ok events =>
        filter (fun e => blockNumber e =? block) events
        = filter (fun e => blockNumber e =? block)
                 (parseAll (queryFilter logs CTF_EXCHANGE TransferSingle
                                        fromBlock toBlock))
          ++ filter (fun e => blockNumber e =? block)
                    (parseAll (queryFilter logs NEG_RISK_CTF_EXCHANGE
                                           TransferSingle fromBlock toBlock))
    | Throw _ => httpProvider m = None
    end.
Proof.
  intros logs f t b m. unfold getHistoricalTransfers.
  destruct (httpProvider m); auto.
  unfold sortByBlock. rewrite inBlock_sort by constructor.
  simpl. now rewrite filter_app.
Qed.

Lemma lowerChar_idempotent c : lowerChar (lowerChar c) = lowerChar c.
Proof.
  destruct c as [[] [] [] [] [] [] [] []]; reflexivity.
Qed.

Lemma toLowerCase_idempotent s : toLowerCase (toLowerCase s) = toLowerCase s.
Proof.
  induction s as [|c s IH]; simpl; auto.
  now rewrite lowerChar_idempotent, IH.
Qed.

(** X9.  A transfer read from a log carries the hash and the block of
    the log, timestamp 0 and the batch flag it was parsed with, and its
    three addresses are in lower case; so everything
    [getHistoricalTransfers] returns has timestamp 0, is not marked as
    batch and has lower-case addresses. *)
Theorem historical_transfers_are_normalised :
  forall (chain : option (list Log)) (fromBlock toBlock : Z) (m : Monitor),
    (forall log flag e,
        parseTransferLog log flag = Some e ->
        txHash e = log_transactionHash log
        /\ blockNumber e = log_blockNumber log
        /\ timestamp e = 0 /\ isBatch e = flag
        /\ toLowerCase (from e) = from e /\ toLowerCase (to e) = to e
        /\ toLowerCase (operator e) = operator e)
    /\ match getHistoricalTransfers chain fromBlock toBlock m with
       | Ok events =>
           Forall (fun e => timestamp e = 0 /\ isBatch e = false
                            /\ toLowerCase (from e) = from e
                            /\ toLowerCase (to e) = to e
                            /\ toLowerCase (operator e) = operator e)
                  events
       | Throw _ => True
       end.
Proof.
  intros chain f t m.
  assert (P : forall log flag e,
             parseTransferLog log flag = Some e ->
             txHash e = log_transactionHash log
             /\ blockNumber e = log_blockNumber log
             /\ timestamp e = 0 /\ isBatch e = flag
             /\ toLowerCase (from e) = from e /\ toLowerCase (to e) = to e
             /\ toLowerCase (operator e) = operator e).
  { intros log flag e. unfold parseTransferLog.
    destruct (log_args log) as [args|]; [|discriminate].
    destruct (nth_error args 1) as [a1|], (nth_error args 2) as [a2|],
      (nth_error args 3) as [a3|], (nth_error args 4) as [a4|],
      (nth_error args 0) as [a0|];
      try discriminate.
    destruct a1, a2, a0; simpl; try discriminate.
    intros [= <-]. simpl. repeat split; apply toLowerCase_idempotent. }
  split; [exact P|].
  unfold getHistoricalTransfers.
  destruct (httpProvider m); auto. destruct chain as [logs|]; auto.
  apply Forall_forall. intros e H.
  apply (Permutation_in _ (sortByBlock_perm _)) in H.
  apply in_app_or in H as [H|H]; apply parseAll_In in H as (log & _ & Q);
    apply P in Q; tauto.
Qed.

Lemma Array_includes_In l x : Array_includes l x = true <-> In x l.
Proof.
  unfold Array_includes. rewrite existsb_exists. split.
  - intros (y & I & E). apply String.eqb_eq in E. now subst.
  - intros I. exists x. split; auto. apply String.eqb_refl.
Qed.

(** X11.  [isOfficialAddress] does not look at the case of letters: an
    address is official exactly when its lower-case form is that of the
    CTF exchange, the NegRisk exchange, the CTF contract, the NegRisk
    adapter or the zero address, and lower-casing an address first does
    not change the answer. *)
Theorem isOfficialAddress_ignores_case :
  forall a : string,
    isOfficialAddress (toLowerCase a) = isOfficialAddress a
    /\ (isOfficialAddress a = true <->
        exists official,
          In official [CTF_EXCHANGE; NEG_RISK_CTF_EXCHANGE; CTF_CONTRACT;
                       NEG_RISK_ADAPTER;
                       "0x0000000000000000000000000000000000000000"%string]
          /\ toLowerCase a = toLowerCase official).
Proof.
  intros a. unfold isOfficialAddress. rewrite toLowerCase_idempotent.
  split; auto. rewrite Array_includes_In.
  change OFFICIAL_ADDRESSES
    with (map toLowerCase
            [CTF_EXCHANGE; NEG_RISK_CTF_EXCHANGE; CTF_CONTRACT;
             NEG_RISK_ADAPTER;
             "0x0000000000000000000000000000000000000000"%string]).
  rewrite in_map_iff. split.
  - intros (o & E & I). eauto.
  - intros (o & I & E). eauto.
Qed.

Lemma digits_string_of_uint d : forall acc,
  digits 10 decDigit acc (NilEmpty.string_of_uint d) = Some (uintValue d acc).
Proof.
  induction d; intros acc; simpl; auto;
    rewrite IHd; f_equal; f_equal; lia.
Qed.

Lemma uintValue_acc d : forall p,
  uintValue d (Zpos p) = Zpos (Pos.of_uint_acc d p).
Proof.
  induction d; intros p; cbn [uintValue Pos.of_uint_acc]; auto;
    match goal with
    | |- uintValue _ ?z = _ =>
        match goal with
        | |- _ = Zpos (Pos.of_uint_acc _ ?q) =>
            replace z with (Zpos q) by lia
        end
    end; apply IHd.
Qed.

Lemma uintValue_0 d : uintValue d 0 = Z.of_N (Pos.of_uint d).
Proof. induction d; simpl; auto; apply uintValue_acc. Qed.

Lemma magnitude_uint d :
  d <> Decimal.Nil ->
  magnitude (NilEmpty.string_of_uint d) = Some (Z.of_N (Pos.of_uint d)).
Proof.
  intros N. rewrite <- uintValue_0, <- digits_string_of_uint.
  destruct d as [|d|d|d|d|d|d|d|d|d|d]; try congruence;
    destruct d; reflexivity.
Qed.

Lemma string_of_uint_nonnil d :
  d <> Decimal.Nil -> NilZero.string_of_uint d = NilEmpty.string_of_uint d.
Proof. destruct d; intros N; try reflexivity; congruence. Qed.

(** The numeral [toString] writes is read back by [BigNumber.from]. *)
Lemma BigNumber_round_trip z : BigNumber_from (BigNumber_toString z) = Some z.
Proof.
  unfold BigNumber_toString.
  destruct z as [|p|p]; [reflexivity| |]; simpl;
    pose proof (DecimalPos.Unsigned.to_uint_nonnil p) as N;
    rewrite (string_of_uint_nonnil _ N);
    assert (M := magnitude_uint _ N);
    rewrite DecimalPos.Unsigned.of_to in M; simpl in M.
  - unfold BigNumber_from. revert N M.
    destruct (Pos.to_uint p) as [|d|d|d|d|d|d|d|d|d|d]; intros N M;
      try congruence; exact M.
  - rewrite M. reflexivity.
Qed.

Lemma processEvent_parsed now e m t a :
  BigNumber_from (minTransferValue (config m)) = Some t ->
  BigNumber_from (amount e) = Some a ->
  completion (processEvent now e m) = Ok tt
  /\ effects (processEvent now e m)
     = (if (0 <? t) && (a <? t) then [] else [emit_transfer e]).
Proof.
  intros T A. unfold processEvent. rewrite T.
  destruct (0 <? t); simpl; auto. rewrite A. destruct (a <? t); auto.
Qed.

(** X12.  A push notification cannot make the pipeline throw as long as
    the configured minimum is a numeral: the amount it carries is
    written by [toString] and read back exactly.  The transfer is
    dropped exactly when the minimum is positive and the value is below
    it; otherwise it is emitted with the value as its amount, the
    receive time in seconds as its timestamp and no batch mark. *)
Theorem push_notification_never_throws :
  forall (now : Z) (operator' from' to' : string) (id value : Z)
         (transactionHash : string) (blockNumber' : Z) (m : Monitor)
         (minValue : Z),
    BigNumber_from (minTransferValue (config m)) = Some minValue ->
    let o := handleTransferSingle now operator' from' to' id value
                                  transactionHash blockNumber' m in
    completion o = Ok tt
    /\ (effects o = [] <-> 0 < minValue /\ value < minValue)
    /\ (forall e, In (emit_transfer e) (effects o) ->
          amount e = BigNumber_toString value
          /\ tokenId e = BigNumber_toString id
          /\ timestamp e = now / 1000 /\ isBatch e = false
          /\ blockNumber e = blockNumber' /\ txHash e = transactionHash).
Proof.
  intros now op f t id v tx bn m mv T o. subst o. unfold handleTransferSingle.
  match goal with |- context [processEvent now ?e m] => set (ev := e) end.
  destruct (processEvent_parsed now ev m mv v T (BigNumber_round_trip v))
    as [C E].
  rewrite C, E. split; auto.
  destruct (0 <? mv) eqn:P; destruct (v <? mv) eqn:L; simpl;
    try apply Z.ltb_lt in P; try apply Z.ltb_ge in P;
    try apply Z.ltb_lt in L; try apply Z.ltb_ge in L;
    (split; [split; [try discriminate; auto | try lia; auto]|]);
    try (intros; exfalso; lia);
    intros e [H|[]]; try contradiction; injection H as <-; subst ev; simpl;
    auto 10.
Qed.

Lemma push_notification_never_throws_witness :
  let o := handleTransferSingle 1700000000123 "0x03" "0xAB" "0xCD" 7 1500
                                "0xabc" 105 filtering in
  completion o = Ok tt
  /\ (effects o = [] <-> 0 < 1000 /\ 1500 < 1000)
  /\ (forall e, In (emit_transfer e) (effects o) ->
        amount e = BigNumber_toString 1500
        /\ tokenId e = BigNumber_toString 7
        /\ timestamp e = 1700000000123 / 1000 /\ isBatch e = false
        /\ blockNumber e = 105 /\ txHash e = "0xabc"%string).
Proof.
  apply (push_notification_never_throws 1700000000123 "0x03" "0xAB" "0xCD"
           7 1500 "0xabc" 105 filtering 1000).
  reflexivity.
Defined.

Lemma config_processEvent now e m :
  config (after (processEvent now e m)) = config m.
Proof.
  destruct (processEvent_frame now e m) as [f ->]. reflexivity.
Qed.

(** X13.  A batch notification sends its tokens down the pipeline one
    by one and throws exactly when it carries fewer values than ids (the
    minimum being a numeral); the transfers it has emitted by then stay
    emitted.  It never emits more transfers than it has ids, all of them
    marked as batch and with the hash of the notification, and with a
    minimum of zero or less it emits one for every id that has a value. *)
Theorem batch_notification_throws_only_for_a_missing_value :
  forall (now : Z) (operator' from' to' : string) (ids values' : list Z)
         (transactionHash : string) (blockNumber' : Z) (m : Monitor)
         (minValue : Z),
    BigNumber_from (minTransferValue (config m)) = Some minValue ->
    let o := handleTransferBatch now operator' from' to' ids values'
                                 transactionHash blockNumber' m in
    (completion o = Ok tt <-> (List.length ids <= List.length values')%nat)
    /\ (List.length (transfersOf (effects o))
        <= Nat.min (List.length ids) (List.length values'))%nat
    /\ Forall (fun e => isBatch e = true /\ txHash e = transactionHash)
              (transfersOf (effects o))
    /\ (minValue <= 0 ->
        List.length (transfersOf (effects o))
        = Nat.min (List.length ids) (List.length values')).
Proof.
  intros now op f t ids vs tx bn m mv. revert vs m.
  induction ids as [|i ids IH]; intros vs m T; cbv zeta.
  - simpl. repeat split; auto; lia.
  - destruct vs as [|v vs]; cbn [handleTransferBatch].
    + simpl. repeat split; auto; try discriminate; try lia.
    + match goal with |- context [processEvent now ?e m] => set (ev := e) end.
      destruct (processEvent_parsed now ev m mv v T (BigNumber_round_trip v))
        as [C E].
      rewrite C. cbn [completion after effects].
      assert (T' : BigNumber_from
                     (minTransferValue (config (after (processEvent now ev m))))
                   = Some mv) by now rewrite config_processEvent.
      destruct (IH vs _ T') as (I1 & I2 & I3 & I4).
      rewrite transfersOf_app, length_app, E. simpl List.length.
      split; [rewrite I1; lia|].
      destruct ((0 <? mv) && (v <? mv)) eqn:D; simpl.
      * split; [lia|]. split; [exact I3|].
        intros L. apply andb_true_iff in D as [D _].
        apply Z.ltb_lt in D. lia.
      * split; [lia|]. split.
        -- constructor; auto.
        -- intros L. rewrite (I4 L). reflexivity.
Qed.

Lemma batch_notification_throws_only_for_a_missing_value_witness :
  let o := handleTransferBatch 0 "0x03" "0xAB" "0xCD" [7; 8; 9] [500; 1500]
                               "0xabc" 105 filtering in
  (completion o = Ok tt <-> (3 <= 2)%nat)
  /\ (List.length (transfersOf (effects o)) <= Nat.min 3 2)%nat
  /\ Forall (fun e => isBatch e = true /\ txHash e = "0xabc"%string)
            (transfersOf (effects o))
  /\ (1000 <= 0 ->
      List.length (transfersOf (effects o)) = Nat.min 3 2).
Proof.
  apply (batch_notification_throws_only_for_a_missing_value
           0 "0x03" "0xAB" "0xCD" [7; 8; 9] [500; 1500] "0xabc" 105
           filtering 1000).
  reflexivity.
Defined.

End MonitorMore.

(** ** More about the pull-based stream *)

Section StreamMore.
Import ChainMonitorClient ChainMonitorSupport.
Local Open Scope Z_scope.

(** X7.  Stopping the monitor does not release a reader that waits for
    an event: as long as no transfer is emitted, a stream at its [await]
    stays there, whether the monitor is running or not, however many
    requests and microtasks come; nothing is delivered, the waiting
    requests pile up, and the listener stays on the monitor. *)
Theorem a_parked_reader_waits_for_the_next_transfer :
  forall (running : bool) (trace : list StreamAction) (s : Stream),
    position s = at_await None ->
    emitted trace = [] ->
    let s' := streamRun running trace s in
    position s' = at_await None
    /\ delivered s' = delivered s
    /\ requests s' = requests s ++ requested trace
    /\ listening s' = true.
Proof.
  intros running trace. induction trace as [|a trace IH]; intros s P E.
  - simpl. rewrite app_nil_r. unfold listening. rewrite P. auto.
  - destruct a as [r|e|]; simpl in E; try discriminate.
    + cbn [streamRun fold_left streamStep].
      assert (N : next running r s
                  = {| eventQueue := eventQueue s;
                       resolveNext := resolveNext s;
                       position := position s;
                       requests := requests s ++ [r];
                       delivered := delivered s |})
        by (unfold next; now rewrite P).
      destruct (IH (next running r s)) as (I1 & I2 & I3 & I4); auto.
      { rewrite N. exact P. }
      unfold streamRun in *. rewrite I1, I2, I3, I4, N. simpl.
      rewrite <- app_assoc. auto.
    + cbn [streamRun fold_left streamStep].
      assert (N : microtask running s = s) by (unfold microtask; now rewrite P).
      rewrite N. apply IH; auto.
Qed.

Lemma a_parked_reader_waits_for_the_next_transfer_witness :
  let s' := streamRun false [do_microtask; do_next 2%nat; do_microtask]
                      parked in
  position s' = at_await None
  /\ delivered s' = delivered parked
  /\ requests s' = requests parked
                   ++ requested [do_microtask; do_next 2%nat; do_microtask]
  /\ listening s' = true.
Proof.
  apply (a_parked_reader_waits_for_the_next_transfer
           false [do_microtask; do_next 2%nat; do_microtask] parked);
    reflexivity.
Defined.

Lemma values_done rs : values (map (fun r : Reader => (r, None)) rs) = [].
Proof. induction rs; simpl; auto. Qed.

Lemma stopped_step a s :
  (List.length (values (delivered (streamStep false a s)))
   + owed (streamStep false a s)
   <= List.length (values (delivered s)) + owed s)%nat.
Proof.
  destruct s as [q rn p rq dl].
  destruct a as [r|e|]; simpl;
    unfold next, emitTo, listening, handler, microtask, loop, owed; simpl.
  - destruct p as [|[e'|]|e'| |]; simpl;
      rewrite ?values_app, ?values_done, ?length_app; simpl; lia.
  - destruct p as [|[e'|]|e'| |]; destruct rn; simpl; lia.
  - destruct p as [|[e'|]|e'| |]; simpl; try lia.
    destruct rq as [|r [|r' rq]]; simpl;
      rewrite ?values_app, ?length_app; simpl;
      rewrite ?values_done; simpl; lia.
Qed.

(** X8.  Once the monitor has stopped, a stream hands out one more
    transfer at most, the one it was already about to deliver or the
    one that wakes its parked reader, and none at all if it was
    suspended or not started: what is in its queue is never delivered. *)
Theorem a_stopped_stream_delivers_one_more_transfer_at_most :
  forall (trace : list StreamAction) (s : Stream),
    let s' := streamRun false trace s in
    (List.length (values (delivered s'))
     <= List.length (values (delivered s)) + owed s)%nat
    /\ (List.length (values (delivered s'))
        <= List.length (values (delivered s)) + 1)%nat.
Proof.
  intros trace.
  assert (G : forall s,
             (List.length (values (delivered (streamRun false trace s)))
              + owed (streamRun false trace s)
              <= List.length (values (delivered s)) + owed s)%nat).
  { induction trace as [|a trace IH]; intros s; simpl; [lia|].
    unfold streamRun in *. simpl.
    pose proof (IH (streamStep false a s)).
    pose proof (stopped_step a s). lia. }
  intros s. cbv zeta. specialize (G s).
  assert (owed s <= 1)%nat
    by (unfold owed; destruct (position s); lia).
  lia.
Qed.

(** A stream with two transfers queued, then the monitor stops: the
    reader that asks next is told the stream is done. *)
Example queued_transfers_are_dropped_on_stop :
  let s := streamRun true
             [do_next 1%nat; do_emit (transfer "1"); do_emit (transfer "2");
              do_emit (transfer "3"); do_microtask; do_microtask]
             subscribeAllTransfers in
  eventQueue s = [transfer "2"; transfer "3"]
  /\ delivered (streamRun false [do_next 2%nat; do_microtask] s)
     = [(1%nat, Some (transfer "1")); (2%nat, None)].
Proof. split; reflexivity. Qed.

End StreamMore.

(** ** The registry of the realtime service *)

Section RegistryFacts.
Import RealtimeService RealtimeRegistry.
Local Open Scope nat_scope.

Lemma counter_step a s : subscriptionIdCounter s <= subscriptionIdCounter (step a s).
Proof.
  destruct a as [ids h|yes no h|n|ev]; simpl; try lia.
  unfold emit. destruct (emitAll ev (attached s)). simpl. lia.
Qed.

Lemma counter_run trace : forall s,
  subscriptionIdCounter s <= subscriptionIdCounter (run trace s).
Proof.
  induction trace as [|a trace IH]; intros s; simpl; [lia|].
  unfold run in *. simpl. pose proof (counter_step a s).
  pose proof (IH (step a s)). lia.
Qed.

Lemma Map_set_fresh {V} (k : nat) (v : V) m :
  ~ In k (map fst m) -> Map_set k v m = m ++ [(k, v)].
Proof.
  induction m as [|[k' v'] m IH]; simpl; auto.
  intros N. destruct (Nat.eqb k k') eqn:E.
  - apply Nat.eqb_eq in E. subst. tauto.
  - rewrite IH; tauto.
Qed.

Lemma filter_together {A B K C} (f : A -> K) (g : B -> K) (p : K -> bool)
      (u : A -> C) (w : B -> C) l : forall l',
  map f l = map g l' -> map u l = map w l' ->
  map f (filter (fun x => p (f x)) l) = map g (filter (fun y => p (g y)) l')
  /\ map u (filter (fun x => p (f x)) l) = map w (filter (fun y => p (g y)) l').
Proof.
  induction l as [|x l IH]; destruct l' as [|y l']; simpl; try discriminate;
    auto.
  intros [= E1 E2] [= E3 E4]. destruct (IH l' E2 E4) as [I1 I2].
  rewrite <- E1. destruct (p (f x)); simpl; split; congruence.
Qed.

Lemma listener_assetIds ev r :
  assetIds (fst (listener ev r)) = assetIds r.
Proof.
  destruct ev; simpl; auto. unfold priceHandler.
  destruct (includes _ _); auto. destruct (pairing r); auto.
Qed.

Lemma emitAll_assetIds ev rs :
  map assetIds (fst (emitAll ev rs)) = map assetIds rs.
Proof.
  induction rs as [|r rs IH]; simpl; auto.
  pose proof (listener_assetIds ev r) as I.
  destruct (listener ev r) as [r' cs].
  destruct (emitAll ev rs) as [rs' cs']. simpl in *. congruence.
Qed.

Lemma registered_step a s :
  wellNumbered s -> registered s -> registered (step a s).
Proof.
  unfold registered. intros [_ W] (R1 & R2 & R3).
  assert (S : forall p ids h,
             let s' := fst (subscribeWith p ids h s) in
             map subscriptionId (attached s') = map fst (subscriptions s')
             /\ map assetIds (attached s')
                = map (fun kv => sub_assetIds (snd kv)) (subscriptions s')
             /\ Forall (fun kv => id (snd kv) = fst kv) (subscriptions s')).
  { intros p ids h. simpl. rewrite Map_set_fresh.
    - rewrite !map_app, R1, R2. simpl. repeat split; auto.
      apply Forall_app. split; auto.
    - rewrite <- R1. intros I. rewrite Forall_forall in W.
      specialize (W _ I). lia. }
  destruct a as [ids h|yes no h|n|ev]; simpl.
  - apply S.
  - apply S.
  - unfold Map_delete.
    destruct (filter_together subscriptionId fst (fun k => negb (Nat.eqb n k))
                assetIds (fun kv => sub_assetIds (snd kv))
                (attached s) (subscriptions s) R1 R2) as [F1 F2].
    repeat split; auto.
    rewrite Forall_forall in *. intros kv I. apply R3.
    now apply filter_In in I.
  - unfold emit.
    pose proof (emitAll_ids ev (attached s)) as E1.
    pose proof (emitAll_assetIds ev (attached s)) as E2.
    destruct (emitAll ev (attached s)) as [rs cs]. simpl in *.
    rewrite E1, E2. auto.
Qed.

Lemma registered_run trace : forall s,
  wellNumbered s -> registered s ->
  wellNumbered (run trace s) /\ registered (run trace s).
Proof.
  induction trace as [|a trace IH]; intros s W R; simpl; auto.
  unfold run in *. simpl. apply IH.
  - now apply wellNumbered_step.
  - now apply registered_step.
Qed.

Lemma reachable_service trace :
  wellNumbered (run trace constructor) /\ registered (run trace constructor).
Proof.
  apply registered_run; unfold wellNumbered, registered; simpl;
    repeat split; constructor.
Qed.

Lemma Map_get_fresh {V} (k : nat) (m : list (nat * V)) :
  ~ In k (map fst m) -> Map_get k m = None.
Proof.
  induction m as [|[k' v'] m IH]; simpl; auto.
  intros N. destruct (Nat.eqb k k') eqn:E.
  - apply Nat.eqb_eq in E. subst. exfalso. apply N. now left.
  - apply IH. intros I. apply N. now right.
Qed.

(** X14.  Subscription numbers are never used twice: a subscription
    made later, whatever was subscribed, unsubscribed or received in
    between, has a greater number than one made before; and the number
    of a new subscription is that of no attached listener and of no
    entry of the map. *)
Theorem subscription_ids_are_never_reused :
  forall (trace between : list Action) (ids ids' : list string)
         (h h' : MarketSubscriptionHandlers),
    let s := run trace constructor in
    let first := subscribeMarkets ids h s in
    let second := subscribeMarkets ids' h' (run between (fst first)) in
    id (snd first) < id (snd second)
    /\ ~ In (id (snd first)) (map subscriptionId (attached s))
    /\ getSubscription (id (snd first)) s = None.
Proof.
  intros trace between ids ids' h h' s first second.
  destruct (reachable_service trace) as [[_ F] (R1 & _)]. fold s in F, R1.
  assert (N : ~ In (id (snd first)) (map subscriptionId (attached s))).
  { subst first. simpl. intros I.
    rewrite Forall_forall in F. specialize (F _ I). lia. }
  split; [|split; auto].
  - subst first second. simpl.
    pose proof (counter_run between (fst (subscribeMarkets ids h s))) as C.
    simpl in C. lia.
  - unfold getSubscription. apply Map_get_fresh. now rewrite <- R1.
Qed.





Lemma emitAll_filter ev (p : nat -> bool) rs :
  snd (emitAll ev (filter (fun r => p (subscriptionId r)) rs))
  = filter (fun c => p (callee c)) (snd (emitAll ev rs)).
Proof.
  induction rs as [|r rs IH]; simpl; auto.
  assert (C : forall c, In c (snd (listener ev r)) ->
                        p (callee c) = p (subscriptionId r))
    by (intros c H; now rewrite (listener_callee _ _ _ H)).
  destruct (p (subscriptionId r)) eqn:P; simpl.
  - destruct (listener ev r) as [r' cs].
    destruct (emitAll ev rs) as [rs' cs'].
    destruct (emitAll ev (filter _ rs)) as [rs'' cs'']. simpl in *.
    rewrite filter_app, IH. f_equal.
    symmetry. apply forallb_filter_id. apply forallb_forall. auto.
  - destruct (listener ev r) as [r' cs].
    destruct (emitAll ev rs) as [rs' cs']. simpl in *.
    rewrite filter_app, IH.
    replace (filter (fun c => p (callee c)) cs) with (@nil Call); auto.
    symmetry. clear IH. induction cs as [|c cs IHc]; simpl; auto.
    rewrite (C c) by (now left). apply IHc. intros; apply C. now right.
Qed.

(** X16.  [unsubscribe] takes away the calls of that subscription and
    leaves every other call as it was: for any event, the calls made
    after it are the calls that would have been made before it, without
    those of the subscription, in the same order. *)
Theorem unsubscribe_removes_only_its_own_calls :
  forall (s : Service) (n : nat) (ev : WsEvent),
    snd (emit ev (unsubscribe n s))
    = filter (fun c => negb (Nat.eqb n (callee c))) (snd (emit ev s)).
Proof.
  intros s n ev. unfold emit, unsubscribe. simpl.
  pose proof (emitAll_filter ev (fun k => negb (Nat.eqb n k)) (attached s))
    as F.
  destruct (emitAll ev (attached s)) as [rs cs].
  destruct (emitAll ev (filter _ (attached s))) as [rs' cs']. exact F.
Qed.

Lemma silenced_step n a s :
  n <= subscriptionIdCounter s ->
  ~ In n (map subscriptionId (attached s)) ->
  ~ In n (map subscriptionId (attached (step a s))).
Proof.
  intros L N. destruct a as [ids h|yes no h|k|ev]; simpl.
  - rewrite map_app, in_app_iff. simpl. intros [I|[I|[]]]; auto. lia.
  - rewrite map_app, in_app_iff. simpl. intros [I|[I|[]]]; auto. lia.
  - intros I. apply N. apply in_map_iff in I as (r & E & I).
    apply filter_In in I as [I _]. apply in_map_iff. eauto.
  - unfold emit. pose proof (emitAll_ids ev (attached s)) as E.
    destruct (emitAll ev (attached s)). simpl in *. now rewrite E.
Qed.

Lemma silenced_run n trace : forall s,
  n <= subscriptionIdCounter s ->
  ~ In n (map subscriptionId (attached s)) ->
  ~ In n (map subscriptionId (attached (run trace s))).
Proof.
  induction trace as [|a trace IH]; intros s L N; simpl; auto.
  unfold run in *. simpl. apply IH.
  - pose proof (counter_step a s). lia.
  - now apply silenced_step.
Qed.

(** X15.  A subscription that has been unsubscribed is never called
    again: whatever is subscribed, unsubscribed or received afterwards,
    no event makes a call of one of its callbacks. *)
Theorem an_unsubscribed_subscription_is_never_called_again :
  forall (before between later : list Action) (ids : list string)
         (h : MarketSubscriptionHandlers) (ev : WsEvent),
    let made := subscribeMarkets ids h (run before constructor) in
    let n := id (snd made) in
    let s := run later (unsubscribe n (run between (fst made))) in
    Forall (fun call => callee call <> n) (snd (emit ev s)).
Proof.
  intros before between later ids h ev made n s.
  apply Forall_forall. intros call H E.
  assert (N : ~ In n (map subscriptionId (attached s))).
  { subst s. apply silenced_run.
    - simpl. pose proof (counter_run between (fst made)) as C.
      subst n made. simpl in *. lia.
    - unfold unsubscribe. cbn [attached]. intros I.
      apply in_map_iff in I as (r & Er & I).
      apply filter_In in I as [_ I]. rewrite Er, Nat.eqb_refl in I.
      discriminate. }
  apply N. unfold emit in H.
  destruct (emitAll ev (attached s)) as [rs cs] eqn:A. simpl in H.
  assert (H' : In call (snd (emitAll ev (attached s)))) by now rewrite A.
  apply emitAll_calls in H' as (r & I & H').
  apply listener_callee in H'. apply in_map_iff. exists r. split; congruence.
Qed.





End RegistryFacts.

(** ** The reports of the wallet service *)

Section WalletMore.
Import WalletService WalletActivities.
Local Open Scope Q_scope.

Lemma sumOf_cons {A} (f : A -> Q) x l : sumOf f (x :: l) == f x + sumOf f l.
Proof. unfold sumOf at 1. simpl. rewrite sumOf_from. lra. Qed.

Lemma sumOf_app {A} (f : A -> Q) l l' :
  sumOf f (l ++ l') == sumOf f l + sumOf f l'.
Proof.
  induction l as [|x l IH]; simpl.
  - unfold sumOf at 2. simpl. lra.
  - rewrite !sumOf_cons, IH. lra.
Qed.

Lemma sumOf_same {A} (f g : A -> Q) l :
  (forall x, In x l -> f x == g x) -> sumOf f l == sumOf g l.
Proof.
  induction l as [|x l IH]; intros E; [reflexivity|].
  rewrite !sumOf_cons, IH, (E x); [reflexivity | now left |].
  intros y I. apply E. now right.
Qed.






Lemma unique_spec l : forall seen,
  NoDup (unique seen l)
  /\ (forall x, In x (unique seen l) <-> In x l /\ ~ In x seen).
Proof.
  induction l as [|y l IH]; intros seen; simpl.
  - split; [constructor | tauto].
  - destruct (existsb (String.eqb y) seen) eqn:E.
    + destruct (IH seen) as [N I]. split; auto.
      intros x. rewrite I. apply existsb_exists in E as (z & Z & E).
      apply String.eqb_eq in E. subst z.
      split; [tauto|]. intros [[<-|H] S]; tauto.
    + assert (S : ~ In y seen).
      { intros H. apply Bool.not_true_iff_false in E. apply E.
        apply existsb_exists. exists y. split; auto. apply String.eqb_refl. }
      destruct (IH (y :: seen)) as [N I]. split.
      * constructor; auto. rewrite I. simpl. tauto.
      * intros x. simpl. rewrite I. simpl.
        destruct (string_dec y x) as [<-|D]; tauto.
Qed.

Lemma filter_apart {A} (p q : A -> bool) l :
  (forall x, p x = true -> q x = false) ->
  (List.length (filter p l) + List.length (filter q l) <= List.length l)%nat.
Proof.
  intros D. induction l as [|x l IH]; simpl; auto.
  destruct (p x) eqn:P.
  - rewrite (D x P). simpl. lia.
  - destruct (q x); simpl; lia.
Qed.

(** X21.  The summary of [getWalletActivity] counts no activity twice:
    buys and sells together are at most the activities, and exactly the
    activities when every one is a buy or a sell; the active markets are
    the markets of the activities, each listed once. *)
Theorem activity_summary_counts_each_activity_once :
  forall (activities : list Activity),
    let s := getWalletActivity activities in
    (totalBuys s + totalSells s <= List.length activities)%nat
    /\ ((forall a, In a activities ->
                   side a = "BUY"%string \/ side a = "SELL"%string) ->
        (totalBuys s + totalSells s = List.length activities)%nat)
    /\ NoDup (activeMarkets s)
    /\ (forall market, In market (activeMarkets s) <->
                       exists a, In a activities /\ conditionId a = market).
Proof.
  intros activities s. subst s. simpl. repeat split.
  - apply filter_apart. intros a H. apply String.eqb_eq in H. now rewrite H.
  - intros S. induction activities as [|a l IH]; simpl; auto.
    destruct (S a (or_introl eq_refl)) as [E|E]; rewrite E; simpl;
      rewrite <- IH by (intros; apply S; now right); lia.
  - apply unique_spec.
  - intros H. apply unique_spec in H as [H _].
    apply in_map_iff in H as (a & E & I). eauto.
  - intros (a & I & E). apply unique_spec. split; auto.
    subst market. now apply in_map.
Qed.

Lemma get_set_same w c counts :
  walletCounts_get w (walletCounts_set w c counts) = Some c.
Proof.
  induction counts as [|[w' c'] rest IH]; simpl.
  - now rewrite String.eqb_refl.
  - destruct (String.eqb w w') eqn:E; simpl; rewrite E; auto.
Qed.

Lemma get_set_other w w' c counts :
  w <> w' ->
  walletCounts_get w' (walletCounts_set w c counts) = walletCounts_get w' counts.
Proof.
  intros D. induction counts as [|[k v] rest IH]; simpl.
  - destruct (String.eqb w' w) eqn:E; auto.
    apply String.eqb_eq in E. congruence.
  - destruct (String.eqb w k) eqn:E; simpl.
    + apply String.eqb_eq in E. subst k.
      destruct (String.eqb w' w) eqn:E'; auto.
      apply String.eqb_eq in E'. congruence.
    + destruct (String.eqb w' k); auto.
Qed.

Lemma keys_set w c counts :
  NoDup (map fst counts) ->
  NoDup (map fst (walletCounts_set w c counts))
  /\ (forall k, In k (map fst (walletCounts_set w c counts)) <->
                k = w \/ In k (map fst counts)).
Proof.
  induction counts as [|[k v] rest IH]; simpl; intros N.
  - split; [repeat constructor; auto|]. intros k. intuition congruence.
  - inversion N as [|? ? N1 N2]; subst.
    destruct (String.eqb w k) eqn:E; simpl.
    + apply String.eqb_eq in E. subst k. split; auto.
      intros k. intuition congruence.
    + destruct (IH N2) as [I1 I2]. split.
      * constructor; auto. rewrite I2. intros [->|H]; auto.
        now rewrite String.eqb_refl in E.
      * intros x. rewrite I2. tauto.
Qed.

Lemma get_In w c counts :
  NoDup (map fst counts) ->
  (In (w, c) counts <-> walletCounts_get w counts = Some c).
Proof.
  induction counts as [|[k v] rest IH]; simpl; intros N.
  - split; [tauto | discriminate].
  - inversion N as [|? ? N1 N2]; subst.
    destruct (String.eqb w k) eqn:E.
    + apply String.eqb_eq in E. subst k. split.
      * intros [[= ->]|H]; auto. exfalso. apply N1.
        apply in_map_iff. exists (w, c). auto.
      * intros [= ->]. auto.
    + rewrite <- (IH N2). split; auto. intros [[= -> ->]|H]; auto.
      now rewrite String.eqb_refl in E.
Qed.

Lemma get_key w counts :
  walletCounts_get w counts <> None <-> In w (map fst counts).
Proof.
  induction counts as [|[k v] rest IH]; simpl; [tauto|].
  destruct (String.eqb w k) eqn:E.
  - apply String.eqb_eq in E. subst. split; auto. discriminate.
  - rewrite IH. split; auto. intros [->|H]; auto.
    now rewrite String.eqb_refl in E.
Qed.

Lemma tradesOf_snoc w seen t :
  tradesOf w (seen ++ [t])
  = (tradesOf w seen
     + match walletOf t with
       | Some w' => if String.eqb w w' then 1 else 0
       | None => 0
       end)%nat.
Proof.
  unfold tradesOf. rewrite filter_app, length_app. simpl.
  destruct (walletOf t) as [w'|]; simpl; auto.
  destruct (String.eqb w w'); simpl; auto.
Qed.

(** The counts after the trades [seen]. *)
Lemma countWallets_from trades : forall seen counts,
  NoDup (map fst counts) ->
  (forall w, walletCounts_get w counts
             = match tradesOf w seen with O => None | n => Some n end) ->
  let counts' := fold_left (fun counts t => match walletOf t with
                                            | Some w => bump w counts
                                            | None => counts
                                            end) trades counts in
  NoDup (map fst counts')
  /\ (forall w, walletCounts_get w counts'
                = match tradesOf w (seen ++ trades) with
                  | O => None | n => Some n end).
Proof.
  induction trades as [|t trades IH]; intros seen counts N G; simpl.
  - rewrite app_nil_r. auto.
  - replace (seen ++ t :: trades) with ((seen ++ [t]) ++ trades)
      by (now rewrite <- app_assoc).
    apply IH.
    + destruct (walletOf t); auto. now apply keys_set.
    + intros w. rewrite tradesOf_snoc.
      destruct (walletOf t) as [w'|].
      * unfold bump. destruct (String.eqb w w') eqn:E.
        -- apply String.eqb_eq in E. subst w'. rewrite get_set_same, G.
           destruct (tradesOf w seen); simpl; f_equal; lia.
        -- rewrite get_set_other, G.
           ++ now rewrite Nat.add_0_r.
           ++ intros ->. now rewrite String.eqb_refl in E.
      * now rewrite G, Nat.add_0_r.
Qed.

Lemma countWallets_spec trades :
  NoDup (map fst (countWallets trades))
  /\ (forall w c, In (w, c) (countWallets trades) <->
                  c = tradesOf w trades /\ (0 < c)%nat).
Proof.
  destruct (countWallets_from trades [] [] (NoDup_nil _)) as [N G].
  { intros w. reflexivity. }
  simpl in G. fold (countWallets trades) in N, G. split; auto.
  intros w c. rewrite (get_In w c _ N), G.
  destruct (tradesOf w trades); split.
  - discriminate.
  - intros [-> H]. lia.
  - intros [= <-]. split; auto. lia.
  - intros [-> _]. reflexivity.
Qed.

Lemma insertByCount_perm e l : Permutation (insertByCount e l) (e :: l).
Proof.
  induction l as [|x l IH]; simpl; auto.
  destruct (snd x <? snd e)%nat; auto.
  rewrite IH. apply perm_swap.
Qed.

Lemma insertByCount_sorted e l :
  StronglySorted (fun a b => (snd b <= snd a)%nat) l ->
  StronglySorted (fun a b => (snd b <= snd a)%nat) (insertByCount e l).
Proof.
  induction 1 as [|x l S IH F]; simpl.
  - repeat constructor.
  - destruct (snd x <? snd e)%nat eqn:E.
    + apply Nat.ltb_lt in E. constructor.
      * constructor; auto.
      * constructor; [lia|]. rewrite Forall_forall in *. intros y I.
        specialize (F y I). lia.
    + apply Nat.ltb_ge in E. constructor; auto.
      rewrite Forall_forall in *. intros y I.
      apply (Permutation_in _ (insertByCount_perm e l)) in I.
      destruct I as [<-|I]; auto.
Qed.

Lemma sortByCount_spec l : forall acc,
  StronglySorted (fun a b => (snd b <= snd a)%nat) acc ->
  StronglySorted (fun a b => (snd b <= snd a)%nat)
                 (fold_left (fun acc e => insertByCount e acc) l acc)
  /\ Permutation (fold_left (fun acc e => insertByCount e acc) l acc)
                 (acc ++ l).
Proof.
  induction l as [|x l IH]; intros acc S; simpl.
  - rewrite app_nil_r. auto.
  - destruct (IH (insertByCount x acc) (insertByCount_sorted x acc S))
      as [I1 I2]. split; auto.
    rewrite I2, insertByCount_perm. apply Permutation_middle.
Qed.

Lemma firstn_sorted {A} (R : A -> A -> Prop) n : forall l,
  StronglySorted R l -> StronglySorted R (firstn n l).
Proof.
  induction n as [|n IH]; intros l S; simpl; [constructor|].
  destruct S as [|x l S F]; constructor; auto.
  rewrite Forall_forall in *. intros y I. apply F.
  rewrite <- (firstn_skipn n l). apply in_or_app. now left.
Qed.

(** X22.  [discoverActiveWallets] lists every wallet once, with the
    number of its trades among the recent ones (at least one), the
    busiest first; it lists [limit] wallets at most, and every wallet
    that traded when [limit] is no less than their number. *)
Theorem discovered_wallets_are_counted_and_ranked :
  forall (trades : list Trade) (limit : Z),
    let found := discoverActiveWallets trades limit in
    NoDup (map fst found)
    /\ (forall w c, In (w, c) found ->
                    c = tradesOf w trades /\ (0 < c)%nat)
    /\ StronglySorted (fun a b => (snd b <= snd a)%nat) found
    /\ (0 <= limit -> Z.of_nat (List.length found) <= limit)%Z
    /\ ((Z.of_nat (List.length (countWallets trades)) <= limit)%Z ->
        forall w, (0 < tradesOf w trades)%nat -> In w (map fst found)).
Proof.
  intros trades limit found.
  destruct (countWallets_spec trades) as [N C].
  destruct (sortByCount_spec (countWallets trades) [] (SSorted_nil _))
    as [S P].
  simpl in P. fold (sortByCount (countWallets trades)) in S, P.
  assert (L : List.length (sortByCount (countWallets trades))
              = List.length (countWallets trades))
    by (apply Permutation_length, P).
  subst found. unfold discoverActiveWallets, slice0.
  set (sorted := sortByCount (countWallets trades)) in *.
  set (n := Z.to_nat _).
  assert (I : forall x, In x (firstn n sorted) -> In x (countWallets trades)).
  { intros x H. apply (Permutation_in _ P).
    rewrite <- (firstn_skipn n sorted). apply in_or_app. now left. }
  split; [|split; [|split; [|split]]].
  - assert (K : NoDup (map fst sorted)).
    { apply (Permutation_NoDup (l := map fst (countWallets trades))); auto.
      apply Permutation_map. now symmetry. }
    rewrite <- (firstn_skipn n sorted), map_app in K.
    now apply NoDup_app_remove_r in K.
  - intros w c H. apply C. auto.
  - now apply firstn_sorted.
  - intros H. rewrite length_firstn. subst n.
    destruct (limit <? 0)%Z eqn:E; [apply Z.ltb_lt in E|]; lia.
  - intros H w T. assert (F : firstn n sorted = sorted).
    { apply firstn_all2. subst n. rewrite L.
      destruct (limit <? 0)%Z eqn:E; [apply Z.ltb_lt in E|]; lia. }
    rewrite F. apply (Permutation_in (l := map fst (countWallets trades))).
    + apply Permutation_map. now symmetry.
    + apply in_map_iff. exists (w, tradesOf w trades). split; auto.
      apply C. auto.
Qed.







End WalletMore.

(** ** The data API client *)

Section DataApiFacts.
Import ChainMonitorSupport DataApiClient.
Local Open Scope Z_scope.

Lemma offsets_snoc n :
  map (fun i => 50 * Z.of_nat i) (seq 0 (S n))
  = map (fun i => 50 * Z.of_nat i) (seq 0 n) ++ [50 * Z.of_nat n].
Proof. rewrite seq_S, map_app. reflexivity. Qed.

Lemma gather_spec endpoint maxEntries : forall fuel all offset' asked,
  (maxEntries < 50 * fuel + List.length all)%nat ->
  offset' = 50 * Z.of_nat (List.length asked) ->
  all = List.concat (map (fun o => endpoint o 50) asked) ->
  asked = map (fun i => 50 * Z.of_nat i) (seq 0 (List.length asked)) ->
  (50 * List.length asked <= List.length all)%nat ->
  exists all' asked',
    gather fuel endpoint maxEntries all offset' asked = Some (all', asked')
    /\ all' = List.concat (map (fun o => endpoint o 50) asked')
    /\ asked' = map (fun i => 50 * Z.of_nat i) (seq 0 (List.length asked'))
    /\ (50 * List.length asked'
        <= Nat.max (50 * List.length asked) (maxEntries + 49))%nat
    /\ ((maxEntries <= List.length all')%nat
        \/ exists o rest, asked' = rest ++ [o]
                          /\ (List.length (endpoint o 50%Z) < 50)%nat).
Proof.
  induction fuel as [|fuel IH]; intros all offset' asked F O A K L.
  - exists all, asked. simpl.
    assert (E : (List.length all <? maxEntries)%nat = false)
      by (apply Nat.ltb_ge; lia).
    rewrite E. repeat split; auto; try lia; left; lia.
  - cbn [gather]. destruct (List.length all <? maxEntries)%nat eqn:E.
    + apply Nat.ltb_lt in E.
      unfold getLeaderboard, orNumber. cbn [entries].
      assert (O' : (if offset' =? 0 then 0 else offset') = offset')
        by (destruct (offset' =? 0) eqn:Z; auto; apply Z.eqb_eq in Z; lia).
      rewrite O'. change (if 50 =? 0 then 50 else 50) with 50.
      assert (A' : all ++ endpoint offset' 50
                   = List.concat (map (fun o => endpoint o 50)
                                      (asked ++ [offset']))).
      { rewrite map_app, concat_app, <- A. simpl. now rewrite app_nil_r. }
      assert (K' : asked ++ [offset']
                   = map (fun i => 50 * Z.of_nat i)
                         (seq 0 (List.length (asked ++ [offset'])))).
      { rewrite length_app. simpl. rewrite Nat.add_1_r, offsets_snoc, <- K.
        now rewrite O. }
      destruct (List.length (endpoint offset' 50%Z) <? 50)%nat eqn:S.
      * apply Nat.ltb_lt in S. exists (all ++ endpoint offset' 50),
                                  (asked ++ [offset']).
        repeat split; auto.
        -- rewrite length_app. cbn [List.length]. lia.
        -- right. exists offset', asked. auto.
      * apply Nat.ltb_ge in S.
        destruct (IH (all ++ endpoint offset' 50) (offset' + 50)
                     (asked ++ [offset'])) as (all' & asked' & G & R);
          auto.
        -- rewrite length_app. lia.
        -- rewrite length_app. cbn [List.length]. lia.
        -- rewrite !length_app. cbn [List.length]. lia.
        -- exists all', asked'. split; auto.
           destruct R as (R1 & R2 & R3 & R4). repeat split; auto.
           rewrite length_app in R3. cbn [List.length] in R3. lia.
    + apply Nat.ltb_ge in E. exists all, asked.
      repeat split; auto; try lia; left; lia.
Qed.

(** X24.  [getAllLeaderboard] always comes to an end: it asks for the
    pages at the offsets 0, 50, 100, ... one after the other, never for
    more pages than the cap needs, and returns the entries of those
    pages in order, cut at the cap; it returns fewer entries than the
    cap only when the last page it asked for was short. *)
Theorem getAllLeaderboard_stops_at_the_cap :
  forall (endpoint : Endpoint) (maxEntries : nat),
  exists (all : list LeaderboardEntry) (asked : list Z),
    getAllLeaderboard endpoint maxEntries = Some (all, asked)
    /\ (List.length all <= maxEntries)%nat
    /\ all = firstn maxEntries
                    (List.concat (map (fun o => endpoint o 50) asked))
    /\ asked = map (fun i => 50 * Z.of_nat i) (seq 0 (List.length asked))
    /\ (50 * List.length asked <= maxEntries + 49)%nat
    /\ ((List.length all < maxEntries)%nat ->
        exists o rest, asked = rest ++ [o]
                       /\ (List.length (endpoint o 50%Z) < 50)%nat).
Proof.
  intros endpoint maxEntries.
  destruct (gather_spec endpoint maxEntries (S maxEntries) [] 0 [])
    as (all & asked & G & A & K & B & D); cbn [List.length]; auto; try lia.
  unfold getAllLeaderboard. rewrite G.
  exists (firstn maxEntries all), asked. rewrite <- A.
  split; [reflexivity|]. split; [rewrite length_firstn; lia|].
  split; [reflexivity|]. split; [exact K|]. split.
  - cbn [List.length] in B. lia.
  - intros S. rewrite length_firstn in S.
    destruct D as [D|D]; auto. lia.
Qed.

Local Open Scope Q_scope.

(** X25.  A timestamp from 2001-09-09 on, given in seconds or in
    milliseconds, is normalised to milliseconds: seconds are multiplied
    by 1000 and milliseconds are kept, so the result is at least 1e12
    and normalising it again changes nothing. *)
Theorem timestamps_are_normalised_to_milliseconds :
  forall (now n : Q),
    1000000000 <= n ->
    exists r : Q,
      normalizeTimestamp now (Jnumber n) = Some r
      /\ 1000000000000 <= r
      /\ normalizeTimestamp now (Jnumber r) = Some r
      /\ (n < 1000000000000 -> r = n * 1000)
      /\ (1000000000000 <= n -> r = n).
Proof.
  intros now n L. unfold normalizeTimestamp, toMilliseconds.
  destruct (Qle_bool 1000000000000 n) eqn:A; simpl.
  - exists n. rewrite A. simpl. apply Qle_bool_iff in A.
    split; [reflexivity|]. split; [exact A|]. split; [reflexivity|].
    split; [intros U; lra | reflexivity].
  - assert (U : ~ 1000000000000 <= n)
      by (rewrite <- Qle_bool_iff; congruence).
    assert (B : Qle_bool 1000000000000 (n * 1000) = true)
      by (apply Qle_bool_iff; lra).
    exists (n * 1000). rewrite B. simpl.
    split; [reflexivity|]. split; [lra|]. split; [reflexivity|].
    split; [reflexivity | intros H; contradiction].
Qed.

Lemma timestamps_are_normalised_to_milliseconds_witness :
  exists r : Q,
    normalizeTimestamp 0 (Jnumber 1700000000) = Some r
    /\ 1000000000000 <= r
    /\ normalizeTimestamp 0 (Jnumber r) = Some r
    /\ (1700000000 < 1000000000000 -> r = 1700000000 * 1000)
    /\ (1000000000000 <= 1700000000 -> r = 1700000000).
Proof.
  apply (timestamps_are_normalised_to_milliseconds 0 1700000000).
  discriminate.
Defined.

Local Open Scope Z_scope.

Lemma leadingDigits_uint d rest :
  (forall c s, rest = String c s -> decDigit c = None) ->
  forall acc, leadingDigits (Some acc) (NilEmpty.string_of_uint d ++ rest)
              = Some (uintValue d acc).
Proof.
  intros R. induction d; intros acc; cbn [NilEmpty.string_of_uint uintValue].
  - destruct rest as [|c s]; simpl; auto. now rewrite (R c s eq_refl).
  - simpl. rewrite IHd. f_equal. f_equal. lia.
  - simpl. rewrite IHd. f_equal.
  - simpl. rewrite IHd. f_equal.
  - simpl. rewrite IHd. f_equal.
  - simpl. rewrite IHd. f_equal.
  - simpl. rewrite IHd. f_equal.
  - simpl. rewrite IHd. f_equal.
  - simpl. rewrite IHd. f_equal.
  - simpl. rewrite IHd. f_equal.
  - simpl. rewrite IHd. f_equal.
Qed.

Lemma leadingDigits_numeral d rest :
  d <> Decimal.Nil ->
  (forall c s, rest = String c s -> decDigit c = None) ->
  leadingDigits None (NilEmpty.string_of_uint d ++ rest)
  = Some (uintValue d 0).
Proof.
  intros N R. destruct d; try congruence;
    cbn [NilEmpty.string_of_uint uintValue]; simpl;
    now rewrite (leadingDigits_uint _ _ R).
Qed.

Lemma parseInt_digits d rest :
  d <> Decimal.Nil ->
  parseInt (NilEmpty.string_of_uint d ++ rest)
  = leadingDigits None (NilEmpty.string_of_uint d ++ rest).
Proof. intros N. destruct d; try congruence; reflexivity. Qed.

Lemma parseInt_numeral z rest :
  (forall c s, rest = String c s -> decDigit c = None) ->
  parseInt (numeral z ++ rest) = Some z.
Proof.
  intros R. unfold numeral, BigNumber_toString.
  destruct z as [|p|p]; simpl.
  - unfold parseInt. simpl.
    destruct rest as [|c s]; simpl; auto. now rewrite (R c s eq_refl).
  - pose proof (DecimalPos.Unsigned.to_uint_nonnil p) as N.
    rewrite (string_of_uint_nonnil _ N), (parseInt_digits _ _ N).
    rewrite (leadingDigits_numeral _ _ N R), uintValue_0.
    now rewrite DecimalPos.Unsigned.of_to.
  - pose proof (DecimalPos.Unsigned.to_uint_nonnil p) as N.
    rewrite (string_of_uint_nonnil _ N). unfold parseInt. simpl.
    rewrite (leadingDigits_numeral _ _ N R), uintValue_0.
    now rewrite DecimalPos.Unsigned.of_to.
Qed.

(** X26.  A timestamp that comes as a string is read by the integer at
    its head: the decimal numeral of an integer, followed by nothing or
    by anything that does not start with a digit, is normalised like the
    integer itself. *)
Theorem string_timestamps_are_read_by_their_leading_integer :
  forall (now : Q) (z : Z) (rest : string),
    (forall c s, rest = String c s -> decDigit c = None) ->
    normalizeTimestamp now (Jstring (numeral z ++ rest))
    = normalizeTimestamp now (Jnumber (inject_Z z)).
Proof.
  intros now z rest R. unfold normalizeTimestamp.
  now rewrite (parseInt_numeral z rest R).
Qed.

Lemma string_timestamps_are_read_by_their_leading_integer_witness :
  normalizeTimestamp 0 (Jstring (numeral 1700000000 ++ ".5s"))
  = normalizeTimestamp 0 (Jnumber (inject_Z 1700000000)).
Proof.
  apply (string_timestamps_are_read_by_their_leading_integer
           0%Q 1700000000 ".5s").
  intros c s [= <- <-]. reflexivity.
Defined.

End DataApiFacts.
